(** * Plasticity: the geometry database and the command executor

    A shallow embedding of [src/editor/GeometryDatabase.ts] and of the
    command executor exercised by the jest suite [describe(CommandExecutor)].

    ** Conventions of the embedding

    - [c3d.SimpleName] is a JavaScript number that only ever holds integers
      here; it is embedded as [Z] (the counters stay far below 2^53, where
      doubles stop being exact).
    - A JavaScript [Map] or [Set] is a mutable object living in the heap; a
      field such as [this.geometryModel] holds a reference to it.  The heap
      is a [gmap] from locations to objects, [m.set(k, v)] updates the
      object in place, [new Map(m)] allocates a fresh object holding a copy
      of the entries of [m].
    - An [async] method body is a computation in a state-and-exception
      monad: a rejected promise is [Throw], a fulfilled one [Ok].
      [addItem], [replaceItem] and [removeItem] run on the database's
      [SequentialExecutor], one at a time and to completion, so each is one
      atomic computation.  [addTemporaryItem] is not queued; it touches
      [negativeCounter] and the two scenes only, which no queued method
      reads, so it is atomic too as far as the state below goes.
    - The geometry kernel, the mesh creator, the visual model builders, the
      signals and [Nodes] are outside the sources; the builders appear as
      parameters, dispatching a signal changes none of the state below. *)

From Equations Require Import Equations.
From stdpp Require Import gmap strings list fin_maps.

#[local] Open Scope Z_scope.
#[local] Set Warnings "-clear-no-such-hyp".
#[local] Set Warnings "-register-all,-solve_obligation_error".

Module GeometryDatabase.

(** [type Agent = 'user' | 'automatic'] *)
Inductive Agent := user | automatic.

Abbreviation SimpleName := Z.

(** The value of an expression [m.get(k)!] of type [c3d.SimpleName]:
    [None] is [undefined], which the non-null assertion lets through. *)
Abbreviation Name := (option SimpleName).

(** What the database reads of a [visual.Item]: its [simpleName], whether
    it is a [visual.Solid], the names of [allFaces], and the names of the
    control points met by [traverse] in its [ControlPointGroup]s.  The
    database writes [simpleName] once, before it stores the view. *)
Record Item := {
  simpleName : SimpleName;
  isSolid : bool;
  allFaces : list string;
  controlPoints : list string;
}.

Definition withSimpleName (name : SimpleName) (view : Item) : Item :=
  {| simpleName := name; isSolid := isSolid view;
     allFaces := allFaces view; controlPoints := controlPoints view |}.

Abbreviation loc := nat.

(** The two scenes of the database an [into] argument can denote. *)
Inductive Scene := intoTemporaryObjects | intoPhantomObjects.

(** The errors thrown by the methods embedded below. *)
Inductive Error :=
  | MissingFromGeometryModel (id : SimpleName)
      (* `invalid precondition: object ${id} missing from geometry model` *)
  | MissingFromTopologyModel (id : string)
      (* `invalid precondition: object ${id} missing from topology model` *)
  | MissingFromControlPointModel (id : string)
      (* `invalid precondition: object ${id} missing from control point model` *)
  | MeshesFailed.
      (* whatever [meshes] / [object2mesh] throw *)

Inductive Result (A : Type) :=
  | Ok (a : A)
  | Throw (e : Error).
Arguments Ok {A} a.
Arguments Throw {A} e.

Section Database.

Context {Model TopologyData ControlPointData : Type}.

(** [await this.meshes(model, name, ..., true)] followed by
    [builder.build(name, this.topologyModel, this.controlPointModel)]: the
    builder reads the model and the id and fills the two maps it is
    handed.  [None] when [meshes] throws. *)
Variable build :
  Model → SimpleName → gmap string TopologyData → gmap string ControlPointData →
  option (Item * gmap string TopologyData * gmap string ControlPointData).

(** [await this.meshes(model, tempId, ..., false, materials)] followed by
    [builder.build(tempId)], which is handed no map. *)
Variable buildTemporary : Model → SimpleName → option Item.

(** ** Heap objects *)

Inductive object :=
  | GeometryMap (m : gmap SimpleName (Item * Model))
  | VersionMap (m : gmap SimpleName Name)          (* version2name *)
  | NameMap (m : gmap Name SimpleName)             (* name2version *)
  | NameSet (s : gset SimpleName)                  (* automatics *)
  | TopologyMap (m : gmap string TopologyData)
  | ControlPointMap (m : gmap string ControlPointData).

#[local] Abbreviation Heap := (gmap loc object).

(** Reading the entries of the object behind a reference. *)
Definition geometryAt (h : Heap) (l : loc) : gmap SimpleName (Item * Model) :=
  match h !! l with Some (GeometryMap m) => m | _ => ∅ end.
Definition versionsAt (h : Heap) (l : loc) : gmap SimpleName Name :=
  match h !! l with Some (VersionMap m) => m | _ => ∅ end.
Definition namesAt (h : Heap) (l : loc) : gmap Name SimpleName :=
  match h !! l with Some (NameMap m) => m | _ => ∅ end.
Definition setAt (h : Heap) (l : loc) : gset SimpleName :=
  match h !! l with Some (NameSet s) => s | _ => ∅ end.
Definition topologyAt (h : Heap) (l : loc) : gmap string TopologyData :=
  match h !! l with Some (TopologyMap m) => m | _ => ∅ end.
Definition controlPointsAt (h : Heap) (l : loc) : gmap string ControlPointData :=
  match h !! l with Some (ControlPointMap m) => m | _ => ∅ end.

(** In-place mutation of the object behind a reference. *)
Definition onGeometry (f : gmap SimpleName (Item * Model) → gmap SimpleName (Item * Model))
    (o : object) : object :=
  match o with GeometryMap m => GeometryMap (f m) | _ => o end.
Definition onVersions (f : gmap SimpleName Name → gmap SimpleName Name) (o : object) : object :=
  match o with VersionMap m => VersionMap (f m) | _ => o end.
Definition onNames (f : gmap Name SimpleName → gmap Name SimpleName) (o : object) : object :=
  match o with NameMap m => NameMap (f m) | _ => o end.
Definition onSet (f : gset SimpleName → gset SimpleName) (o : object) : object :=
  match o with NameSet s => NameSet (f s) | _ => o end.
Definition onTopology (f : gmap string TopologyData → gmap string TopologyData)
    (o : object) : object :=
  match o with TopologyMap m => TopologyMap (f m) | _ => o end.
Definition onControlPoints (f : gmap string ControlPointData → gmap string ControlPointData)
    (o : object) : object :=
  match o with ControlPointMap m => ControlPointMap (f m) | _ => o end.

(** [new Map(..)] / [new Set(..)]: a fresh location holding [o]. *)
Definition alloc (o : object) (h : Heap) : loc * Heap :=
  let l := fresh (dom h) in (l, <[l := o]> h).

(** ** The database object *)

Record GeometryDatabase := {
  geometryModel : loc;
  version2name : loc;
  name2version : loc;
  automatics : loc;
  topologyModel : loc;
  controlPointModel : loc;
  positiveCounter : Z;
  negativeCounter : Z;
  temporaryObjects : list Item;
  phantomObjects : list Item;
}.

Record GeometryMemento := {
  m_geometryModel : loc;
  m_version2name : loc;
  m_name2version : loc;
  m_topologyModel : loc;
  m_controlPointModel : loc;
  m_automatics : loc;
}.

Record State := {
  heap : Heap;
  this : GeometryDatabase;
}.

Definition withHeap (h : Heap) (s : State) : State :=
  {| heap := h; this := this s |}.

Definition withCounters (p n : Z) (d : GeometryDatabase) : GeometryDatabase :=
  {| geometryModel := geometryModel d; version2name := version2name d;
     name2version := name2version d; automatics := automatics d;
     topologyModel := topologyModel d; controlPointModel := controlPointModel d;
     positiveCounter := p; negativeCounter := n;
     temporaryObjects := temporaryObjects d; phantomObjects := phantomObjects d |}.

Definition withScenes (t p : list Item) (d : GeometryDatabase) : GeometryDatabase :=
  {| geometryModel := geometryModel d; version2name := version2name d;
     name2version := name2version d; automatics := automatics d;
     topologyModel := topologyModel d; controlPointModel := controlPointModel d;
     positiveCounter := positiveCounter d; negativeCounter := negativeCounter d;
     temporaryObjects := t; phantomObjects := p |}.

(** ** The monad of method bodies *)

Definition M (A : Type) : Type := State → State * Result A.

Definition ret {A} (a : A) : M A := λ s, (s, Ok a).
Definition throw {A} (e : Error) : M A := λ s, (s, Throw e).
Definition bind {A B} (c : M A) (k : A → M B) : M B :=
  λ s, match c s with
       | (s', Ok a) => k a s'
       | (s', Throw e) => (s', Throw e)
       end.
Definition gets {A} (f : State → A) : M A := λ s, (s, Ok (f s)).
Definition modify (f : State → State) : M unit := λ s, (f s, Ok tt).

Notation "'let!' x ':=' c 'in' k" := (bind c (λ x, k))
  (at level 10, x name, c at level 100, k at level 200).
Notation "'do!' c 'in' k" := (bind c (λ _, k))
  (at level 10, c at level 100, k at level 200).

(** [this.f.m(..)] for a method [m] that changes the object in place. *)
Definition mutate (field : GeometryDatabase → loc) (f : object → object) : M unit :=
  modify (λ s, withHeap (alter f (field (this s)) (heap s)) s).

(** ** Methods *)

(** [constructor]: the field initialisers, in order. *)
Definition new : State :=
  let '(g, h) := alloc (GeometryMap ∅) ∅ in
  let '(v, h) := alloc (VersionMap ∅) h in
  let '(n, h) := alloc (NameMap ∅) h in
  let '(a, h) := alloc (NameSet ∅) h in
  let '(t, h) := alloc (TopologyMap ∅) h in
  let '(c, h) := alloc (ControlPointMap ∅) h in
  {| heap := h;
     this := {| geometryModel := g; version2name := v; name2version := n;
                automatics := a; topologyModel := t; controlPointModel := c;
                positiveCounter := 1; negativeCounter := -1;
                temporaryObjects := []; phantomObjects := [] |} |}.

(** The id [insertItem] gives the item, and the counter afterwards. *)
Definition insertedName (name : option SimpleName) (d : GeometryDatabase) : SimpleName :=
  match name with
  | None => positiveCounter d                       (* name = this.positiveCounter++ *)
  | Some name => name
  end.

Definition counterAfterInsert (name : option SimpleName) (d : GeometryDatabase) : Z :=
  match name with
  | None => positiveCounter d + 1
  | Some name => Z.max (positiveCounter d) (name + 1)
  end.

Definition insertItem (model : Model) (agent : Agent) (name : option SimpleName) : M Item :=
  let! name' := gets (λ s, insertedName name (this s)) in
  do! modify (λ s, {| heap := heap s;
                      this := withCounters (counterAfterInsert name (this s))
                                           (negativeCounter (this s)) (this s) |}) in
  let! built := gets (λ s, build model name'
                             (topologyAt (heap s) (topologyModel (this s)))
                             (controlPointsAt (heap s) (controlPointModel (this s)))) in
  match built with
  | None => throw MeshesFailed
  | Some (view, topology, points) =>
      do! mutate topologyModel (onTopology (λ _, topology)) in
      do! mutate controlPointModel (onControlPoints (λ _, points)) in
      let view := withSimpleName name' view in             (* view.userData.simpleName = name *)
      do! mutate geometryModel (onGeometry <[name' := (view, model)]>) in
      do! match agent with
          | automatic => mutate automatics (onSet (λ s, {[name']} ∪ s))
          | user => ret tt
          end in
      ret view
  end.

Definition addItem (model : Model) (agent : Agent) (name : option SimpleName) : M Item :=
  let! result := insertItem model agent name in
  do! mutate version2name (onVersions <[simpleName result := Some (simpleName result)]>) in
  do! mutate name2version (onNames <[Some (simpleName result) := simpleName result]>) in
  ret result.

Definition removeTopologyItems (parent : Item) : M unit :=
  if isSolid parent then
    do! mutate topologyModel (onTopology (λ m, foldl (λ m face, delete face m) m (allFaces parent))) in
    (* the second loop walks [allFaces] again *)
    mutate topologyModel (onTopology (λ m, foldl (λ m edge, delete edge m) m (allFaces parent)))
  else ret tt.

Definition removeControlPoints (parent : Item) : M unit :=
  mutate controlPointModel
    (onControlPoints (λ m, foldl (λ m p, delete p m) m (controlPoints parent))).

Definition _removeItem (view : Item) (agent : Agent) : M unit :=
  let simpleName := simpleName view in
  do! mutate geometryModel (onGeometry (delete simpleName)) in
  do! removeTopologyItems view in
  do! removeControlPoints view in
  mutate automatics (onSet (λ s, s ∖ {[simpleName]})).

(** [this.version2name.get(id)!] *)
Definition version2name_get (id : SimpleName) : M Name :=
  gets (λ s, mjoin (versionsAt (heap s) (version2name (this s)) !! id)).

Definition replaceItem (from : Item) (model : Model) : M Item :=
  let! to := insertItem model user None in
  do! _removeItem from user in
  let! name := version2name_get (simpleName from) in
  do! mutate version2name (onVersions (delete (simpleName from))) in
  do! mutate version2name (onVersions <[simpleName to := name]>) in
  do! mutate name2version (onNames <[name := simpleName to]>) in
  ret to.

Definition removeItem (view : Item) (agent : Agent) : M unit :=
  let! result := _removeItem view agent in
  (* this.nodes.delete(view.simpleName): outside the database *)
  let! old := version2name_get (simpleName view) in
  do! mutate version2name (onVersions (delete (simpleName view))) in
  do! mutate name2version (onNames (delete old)) in
  ret result.

(** [into.add(view)] *)
Definition sceneAdd (into : Scene) (view : Item) (d : GeometryDatabase) : GeometryDatabase :=
  match into with
  | intoTemporaryObjects => withScenes (temporaryObjects d ++ [view]) (phantomObjects d) d
  | intoPhantomObjects => withScenes (temporaryObjects d) (phantomObjects d ++ [view]) d
  end.

(** The result pairs the [tempId] handed to the builder with the view
    that the returned [TemporaryObject] wraps. *)
Definition addTemporaryItem (model : Model) (ancestor : option Item) (into : Scene)
    : M (SimpleName * Item) :=
  let! tempId := gets (λ s, negativeCounter (this s)) in      (* this.negativeCounter-- *)
  do! modify (λ s, {| heap := heap s;
                      this := withCounters (positiveCounter (this s))
                                           (negativeCounter (this s) - 1) (this s) |}) in
  match buildTemporary model tempId with
  | None => throw MeshesFailed
  | Some view =>
      do! modify (λ s, {| heap := heap s; this := sceneAdd into view (this s) |}) in
      ret (tempId, view)
  end.

Definition addPhantom (object : Model) : M (SimpleName * Item) :=
  addTemporaryItem object None intoPhantomObjects.

Definition replaceWithTemporaryItem (from : Item) (to : Model) : M (SimpleName * Item) :=
  addTemporaryItem to (Some from) intoTemporaryObjects.

Definition clearTemporaryObjects : M unit :=
  modify (λ s, {| heap := heap s; this := withScenes [] [] (this s) |}).

Definition lookupItemById (id : SimpleName) : M (Item * Model) :=
  let! result := gets (λ s, geometryAt (heap s) (geometryModel (this s)) !! id) in
  match result with
  | None => throw (MissingFromGeometryModel id)
  | Some result => ret result
  end.

Definition lookup (object : Item) : M Model :=
  let! r := lookupItemById (simpleName object) in ret (snd r).

Definition hasTopologyItem (id : string) : M bool :=
  gets (λ s, bool_decide (is_Some (topologyAt (heap s) (topologyModel (this s)) !! id))).

Definition lookupTopologyItemById (id : string) : M TopologyData :=
  let! result := gets (λ s, topologyAt (heap s) (topologyModel (this s)) !! id) in
  match result with
  | None => throw (MissingFromTopologyModel id)
  | Some result => ret result
  end.

Definition lookupControlPointById (id : string) : M ControlPointData :=
  let! result := gets (λ s, controlPointsAt (heap s) (controlPointModel (this s)) !! id) in
  match result with
  | None => throw (MissingFromControlPointModel id)
  | Some result => ret result
  end.

Definition lookupName (version : SimpleName) : M (option Name) :=
  gets (λ s, versionsAt (heap s) (version2name (this s)) !! version).

(** [new Map(this.f)]: a new object with the entries of the given one. *)
Definition copyOf (read : Heap → loc → object) (l : loc) : M loc :=
  λ s, let '(l', h) := alloc (read (heap s) l) (heap s) in (withHeap h s, Ok l').

Definition saveToMemento : M GeometryMemento :=
  let! g := (λ s, copyOf (λ h l, GeometryMap (geometryAt h l)) (geometryModel (this s)) s) in
  let! v := (λ s, copyOf (λ h l, VersionMap (versionsAt h l)) (version2name (this s)) s) in
  let! n := (λ s, copyOf (λ h l, NameMap (namesAt h l)) (name2version (this s)) s) in
  let! t := (λ s, copyOf (λ h l, TopologyMap (topologyAt h l)) (topologyModel (this s)) s) in
  let! c := (λ s, copyOf (λ h l, ControlPointMap (controlPointsAt h l)) (controlPointModel (this s)) s) in
  let! a := (λ s, copyOf (λ h l, NameSet (setAt h l)) (automatics (this s)) s) in
  ret {| m_geometryModel := g; m_version2name := v; m_name2version := n;
         m_topologyModel := t; m_controlPointModel := c; m_automatics := a |}.

Definition restoreFromMemento (m : GeometryMemento) : M unit :=
  let! g := copyOf (λ h l, GeometryMap (geometryAt h l)) (m_geometryModel m) in
  let! v := copyOf (λ h l, VersionMap (versionsAt h l)) (m_version2name m) in
  let! n := copyOf (λ h l, NameMap (namesAt h l)) (m_name2version m) in
  let! t := copyOf (λ h l, TopologyMap (topologyAt h l)) (m_topologyModel m) in
  let! c := copyOf (λ h l, ControlPointMap (controlPointsAt h l)) (m_controlPointModel m) in
  let! a := copyOf (λ h l, NameSet (setAt h l)) (m_automatics m) in
  modify (λ s, {| heap := heap s;
                  this := {| geometryModel := g; version2name := v; name2version := n;
                             automatics := a; topologyModel := t; controlPointModel := c;
                             positiveCounter := positiveCounter (this s);
                             negativeCounter := negativeCounter (this s);
                             temporaryObjects := temporaryObjects (this s);
                             phantomObjects := phantomObjects (this s) |} |}).

(** ** The maps of the database, read through its references *)

Definition geometry (s : State) : gmap SimpleName (Item * Model) :=
  geometryAt (heap s) (geometryModel (this s)).
Definition versions (s : State) : gmap SimpleName Name :=
  versionsAt (heap s) (version2name (this s)).
Definition names (s : State) : gmap Name SimpleName :=
  namesAt (heap s) (name2version (this s)).
Definition automaticSet (s : State) : gset SimpleName :=
  setAt (heap s) (automatics (this s)).
Definition topology (s : State) : gmap string TopologyData :=
  topologyAt (heap s) (topologyModel (this s)).
Definition points (s : State) : gmap string ControlPointData :=
  controlPointsAt (heap s) (controlPointModel (this s)).

(** The entries of the six tracked maps and sets, as values. *)
Record Contents := {
  geometryEntries : gmap SimpleName (Item * Model);
  versionEntries : gmap SimpleName Name;
  nameEntries : gmap Name SimpleName;
  topologyEntries : gmap string TopologyData;
  controlPointEntries : gmap string ControlPointData;
  automaticEntries : gset SimpleName;
}.

Definition contents (s : State) : Contents :=
  {| geometryEntries := geometry s; versionEntries := versions s;
     nameEntries := names s; topologyEntries := topology s;
     controlPointEntries := points s; automaticEntries := automaticSet s |}.

Definition mementoContents (h : Heap) (m : GeometryMemento) : Contents :=
  {| geometryEntries := geometryAt h (m_geometryModel m);
     versionEntries := versionsAt h (m_version2name m);
     nameEntries := namesAt h (m_name2version m);
     topologyEntries := topologyAt h (m_topologyModel m);
     controlPointEntries := controlPointsAt h (m_controlPointModel m);
     automaticEntries := setAt h (m_automatics m) |}.

(** ** Well-formed heaps *)

Inductive kind := KGeometry | KVersions | KNames | KSet | KTopology | KControlPoints.

Definition kindOf (o : object) : kind :=
  match o with
  | GeometryMap _ => KGeometry
  | VersionMap _ => KVersions
  | NameMap _ => KNames
  | NameSet _ => KSet
  | TopologyMap _ => KTopology
  | ControlPointMap _ => KControlPoints
  end.

(** The reference [l] is live and points to an object of kind [k]. *)
Definition holds (h : Heap) (l : loc) (k : kind) : Prop :=
  kindOf <$> h !! l = Some k.

Definition locsOf (d : GeometryDatabase) : list loc :=
  [geometryModel d; version2name d; name2version d;
   automatics d; topologyModel d; controlPointModel d].

Definition mementoLocs (m : GeometryMemento) : list loc :=
  [m_geometryModel m; m_version2name m; m_name2version m;
   m_topologyModel m; m_controlPointModel m; m_automatics m].

(** Every field of the database refers to an object of its declared type. *)
Definition typed (s : State) : Prop :=
  holds (heap s) (geometryModel (this s)) KGeometry ∧
  holds (heap s) (version2name (this s)) KVersions ∧
  holds (heap s) (name2version (this s)) KNames ∧
  holds (heap s) (automatics (this s)) KSet ∧
  holds (heap s) (topologyModel (this s)) KTopology ∧
  holds (heap s) (controlPointModel (this s)) KControlPoints.

(** A memento held by a caller: its objects are live and none of them is
    an object the database itself refers to. *)
Definition detached (s : State) (m : GeometryMemento) : Prop :=
  ∀ l, l ∈ mementoLocs m → l ∈ dom (heap s) ∧ l ∉ locsOf (this s).

(** What a method body may do to the heap: objects stay where they are
    and keep their type, and only the objects the database refers to
    change; the database keeps referring to the same objects. *)
Definition updates (s s' : State) : Prop :=
  locsOf (this s') = locsOf (this s) ∧
  ∀ l o, heap s !! l = Some o →
    ∃ o', heap s' !! l = Some o' ∧ kindOf o' = kindOf o ∧
          (l ∉ locsOf (this s) → o' = o).

(** A method body that only ever [updates] the state. *)
Definition respects {A} (c : M A) : Prop :=
  ∀ s s' r, c s = (s', r) → updates s s'.

(** An in-place mutation keeps the type of every object; it [spares]
    the objects of kind [k] when it leaves them as they are. *)
Definition preserving (f : object → object) : Prop :=
  ∀ o, kindOf (f o) = kindOf o.

Definition spares (k : kind) (f : object → object) : Prop :=
  ∀ o, kindOf (f o) = kindOf o ∧ (kindOf o = k → f o = o).

(** ** Sessions: a caller driving the database *)

Inductive Op :=
  | AddItem (model : Model) (agent : Agent) (name : option SimpleName)
  | ReplaceItem (from : Item) (model : Model)
  | RemoveItem (view : Item) (agent : Agent)
  | AddTemporaryItem (model : Model) (ancestor : option Item) (into : Scene)
  | ClearTemporaryObjects
  | SaveToMemento
  | RestoreFromMemento (i : nat).     (* the i-th memento saved so far *)

(** The database together with what its caller holds: the mementos it
    was given, the ids of the real items it got back (oldest first) and
    the ids of the temporary objects. *)
Record Session := {
  state : State;
  mementos : list GeometryMemento;
  issued : list SimpleName;
  temporaryIds : list SimpleName;
}.

Definition start (s : State) : Session :=
  {| state := s; mementos := []; issued := []; temporaryIds := [] |}.

Definition perform (op : Op) (c : Session) : Session :=
  match op with
  | AddItem model agent name =>
      match addItem model agent name (state c) with
      | (s, Ok view) =>
          {| state := s; mementos := mementos c;
             issued := issued c ++ [simpleName view]; temporaryIds := temporaryIds c |}
      | (s, Throw _) =>
          {| state := s; mementos := mementos c;
             issued := issued c; temporaryIds := temporaryIds c |}
      end
  | ReplaceItem from model =>
      match replaceItem from model (state c) with
      | (s, Ok view) =>
          {| state := s; mementos := mementos c;
             issued := issued c ++ [simpleName view]; temporaryIds := temporaryIds c |}
      | (s, Throw _) =>
          {| state := s; mementos := mementos c;
             issued := issued c; temporaryIds := temporaryIds c |}
      end
  | RemoveItem view agent =>
      {| state := fst (removeItem view agent (state c)); mementos := mementos c;
         issued := issued c; temporaryIds := temporaryIds c |}
  | AddTemporaryItem model ancestor into =>
      match addTemporaryItem model ancestor into (state c) with
      | (s, Ok (tempId, _)) =>
          {| state := s; mementos := mementos c;
             issued := issued c; temporaryIds := temporaryIds c ++ [tempId] |}
      | (s, Throw _) =>
          {| state := s; mementos := mementos c;
             issued := issued c; temporaryIds := temporaryIds c |}
      end
  | ClearTemporaryObjects =>
      {| state := fst (clearTemporaryObjects (state c)); mementos := mementos c;
         issued := issued c; temporaryIds := temporaryIds c |}
  | SaveToMemento =>
      match saveToMemento (state c) with
      | (s, Ok m) =>
          {| state := s; mementos := mementos c ++ [m];
             issued := issued c; temporaryIds := temporaryIds c |}
      | (s, Throw _) =>
          {| state := s; mementos := mementos c;
             issued := issued c; temporaryIds := temporaryIds c |}
      end
  | RestoreFromMemento i =>
      match mementos c !! i with
      | Some m =>
          {| state := fst (restoreFromMemento m (state c)); mementos := mementos c;
             issued := issued c; temporaryIds := temporaryIds c |}
      | None => c
      end
  end.

Fixpoint run (ops : list Op) (c : Session) : Session :=
  match ops with
  | [] => c
  | op :: ops => run ops (perform op c)
  end.


(** Every id in a pair of name indices satisfies [P]. *)
Definition indexedWithin (P : SimpleName → Prop)
    (vs : gmap SimpleName Name) (ns : gmap Name SimpleName) : Prop :=
  (∀ v n, vs !! v = Some n → P v ∧ ∀ n', n = Some n' → P n') ∧
  (∀ n v, ns !! n = Some v → P v ∧ ∀ n', n = Some n' → P n').

(** The heap of a session is well formed: the database is [typed] and
    every memento the caller holds is [detached] from it. *)
Definition sound (c : Session) : Prop :=
  typed (state c) ∧ Forall (detached (state c)) (mementos c).

(** Every id in the name indices of a session, live or saved in one of
    its mementos, satisfies [P]. *)
Definition indexed (P : SimpleName → Prop) (c : Session) : Prop :=
  indexedWithin P (versions (state c)) (names (state c)) ∧
  Forall (λ m, indexedWithin P
                 (versionEntries (mementoContents (heap (state c)) m))
                 (nameEntries (mementoContents (heap (state c)) m)))
         (mementos c).

(** The counters of a session bound every id it has seen: the ids in the
    name indices and the ids of real items lie below [positiveCounter];
    the ids of temporary objects lie between [negativeCounter] and zero. *)
Definition counted (c : Session) : Prop :=
  let p := positiveCounter (this (state c)) in
  let n := negativeCounter (this (state c)) in
  1 ≤ p ∧ n ≤ -1 ∧
  indexed (λ i, i < p) c ∧
  Forall (λ i, i < p) (issued c) ∧
  Forall (λ i, n < i ∧ i < 0) (temporaryIds c).

(** The id an operation gives to the real item it inserts, if it inserts one. *)
Definition insertedBy (op : Op) (c : Session) : option SimpleName :=
  match op with
  | AddItem _ _ name => Some (insertedName name (this (state c)))
  | ReplaceItem _ _ => Some (positiveCounter (this (state c)))
  | _ => None
  end.

(** [version2name] and [name2version] are inverses of one another, of
    equal size, and hold no [undefined]. *)
Definition inverses (vs : gmap SimpleName Name) (ns : gmap Name SimpleName) : Prop :=
  size vs = size ns ∧
  (∀ v n, vs !! v = Some (Some n) ↔ ns !! Some n = Some v) ∧
  (∀ v, vs !! v ≠ Some None) ∧
  ns !! None = None.

(** The name indices of a session, live or saved in a memento, are [inverses]. *)
Definition paired (c : Session) : Prop :=
  inverses (versions (state c)) (names (state c)) ∧
  Forall (λ m, inverses (versionEntries (mementoContents (heap (state c)) m))
                        (nameEntries (mementoContents (heap (state c)) m)))
         (mementos c).

(** An operation applied under its precondition, the item it looks up
    being there, with [addItem] handed no explicit name. *)
Definition plain (op : Op) (c : Session) : Prop :=
  match op with
  | AddItem _ _ name => name = None
  | ReplaceItem from _ => is_Some (versions (state c) !! simpleName from)
  | RemoveItem view _ => is_Some (versions (state c) !! simpleName view)
  | _ => True
  end.

Fixpoint plainly (ops : list Op) (c : Session) : Prop :=
  match ops with
  | [] => True
  | op :: ops => plain op c ∧ plainly ops (perform op c)
  end.

(** ** The other methods of the database *)

(** [lookupByName]: [this.lookupItemById(this.name2version.get(name)!)].
    [inl id] stands for the error [lookupItemById] throws for [id],
    `invalid precondition: object ${id} missing from geometry model`, with
    [None] the [undefined] a name missing from [name2version] is looked up
    as; no key of [geometryModel] is [undefined]. *)
Definition lookupByName (name : SimpleName) (s : State) : State * (Name + Item * Model) :=
  match namesAt (heap s) (name2version (this s)) !! Some name with
  | Some id =>
      match lookupItemById id s with
      | (s', Ok result) => (s', inr result)
      | (s', Throw _) => (s', inl (Some id))
      end
  | None => (s, inl None)
  end.

(** [find]: the entries of [geometryModel], less the automatic ones
    unless [includeAutomatics], that are instances of [klass] when one is
    given.  The loop walks the Map in insertion order, which the model
    of a Map does not keep: the list below holds the same entries in
    the order of [map_to_list]. *)
Definition find (klass : option (Item → bool)) (includeAutomatics : bool) (s : State)
    : list (Item * Model) :=
  let automatics := setAt (heap s) (automatics (this s)) in
  omap (λ '(id, (view, model)),
          if negb includeAutomatics && bool_decide (id ∈ automatics) then None
          else match klass with
               | None => Some (view, model)
               | Some klass => if klass view then Some (view, model) else None
               end)
       (map_to_list (geometryAt (heap s) (geometryModel (this s)))).

Definition findAll (includeAutomatics : bool) (s : State) : list (Item * Model) :=
  find None includeAutomatics s.

(** [validate]: whether the assertion
    [this.name2version.size === this.version2name.size] holds. *)
Definition validate (s : State) : bool :=
  bool_decide (size (namesAt (heap s) (name2version (this s))) =
               size (versionsAt (heap s) (version2name (this s)))).

(** [model.Duplicate().Cast<c3d.Item>(model.IsA())] *)
Variable duplicateOf : Model → Model.

(** [new c3d.SpaceInstance(data.model.MakeCurve()!)] for the topology
    record [data] of an edge. *)
Variable curveOf : TopologyData → Model.

(** [duplicate]: its argument is a [visual.Item] or a [visual.CurveEdge],
    known by its [simpleName]. *)
Definition duplicate (item : Item + string) : M Item :=
  match item with
  | inl item =>
      let! model := lookup item in
      addItem (duplicateOf model) user None
  | inr edge =>
      let! data := lookupTopologyItemById edge in
      addItem (curveOf data) user None
  end.

(** A [c3d.Item] as [load] sees it: an [Assembly] of items, an [Instance]
    of an item ([GetItem()] may be [null]), or anything else, which
    carries its [GetItemName()]. *)
Inductive C3dItem :=
  | C3dLeaf (model : Model) (itemName : SimpleName)
  | C3dAssembly (items : list C3dItem)
  | C3dInstance (item : option C3dItem).

Fixpoint weight (item : C3dItem) : nat :=
  match item with
  | C3dLeaf _ _ => 1
  | C3dAssembly items => S (sum_list (weight <$> items))
  | C3dInstance None => 2
  | C3dInstance (Some item) => S (weight item)
  end.

Definition weightOf (entry : option C3dItem) : nat :=
  match entry with Some item => weight item | None => 1%nat end.

(** [loadItems]: the loop of [load] over its [stack], which [shift]s the
    first entry and [push]es to the end.  The result lists what is
    handed to [addItem], in order, and tells whether the loop ran to its
    end ([true]) or stopped on [item.Cast] of a [null] entry. *)
Equations loadItems (stack : list (option C3dItem)) : list (Model * SimpleName) * bool
    by wf (sum_list (weightOf <$> stack)) lt :=
  loadItems [] := ([], true);
  loadItems (None :: _) := ([], false);
  loadItems (Some (C3dAssembly items) :: stack) := loadItems (stack ++ (Some <$> items));
  loadItems (Some (C3dInstance item) :: stack) := loadItems (stack ++ [item]);
  loadItems (Some (C3dLeaf model name) :: stack) :=
    ((model, name) :: fst (loadItems stack), snd (loadItems stack)).
Next Obligation.
  intros; rewrite ?fmap_app, ?sum_list_with_app, ?fmap_cons, <-?list_fmap_compose;
    change (weightOf ∘ Some) with weight;
    repeat match goal with item : option C3dItem |- _ => destruct item end;
    cbn [fmap list_fmap sum_list_with id weightOf weight]; lia.
Qed.
Next Obligation.
  intros; rewrite ?fmap_app, ?sum_list_with_app, ?fmap_cons, <-?list_fmap_compose;
    change (weightOf ∘ Some) with weight;
    repeat match goal with item : option C3dItem |- _ => destruct item end;
    cbn [fmap list_fmap sum_list_with id weightOf weight]; lia.
Qed.
Next Obligation.
  intros; rewrite ?fmap_app, ?sum_list_with_app, ?fmap_cons, <-?list_fmap_compose;
    change (weightOf ∘ Some) with weight;
    repeat match goal with item : option C3dItem |- _ => destruct item end;
    cbn [fmap list_fmap sum_list_with id weightOf weight]; lia.
Qed.
Next Obligation.
  intros; rewrite ?fmap_app, ?sum_list_with_app, ?fmap_cons, <-?list_fmap_compose;
    change (weightOf ∘ Some) with weight;
    repeat match goal with item : option C3dItem |- _ => destruct item end;
    cbn [fmap list_fmap sum_list_with id weightOf weight]; lia.
Qed.

(** The promises of the [addItem] calls of [load], settled in the order
    in which the queue of the database runs them. *)
Fixpoint addItems (entries : list (Model * option SimpleName)) (s : State)
    : State * list (Result Item) :=
  match entries with
  | [] => (s, [])
  | (model, name) :: entries =>
      let '(s, result) := addItem model user name s in
      let '(s, results) := addItems entries s in
      (s, result :: results)
  end.

(** [Promise.all]: every value, or the rejection that came first. *)
Fixpoint all {A} (results : list (Result A)) : Result (list A) :=
  match results with
  | [] => Ok []
  | Throw e :: _ => Throw e
  | Ok a :: results =>
      match all results with
      | Ok values => Ok (a :: values)
      | Throw e => Throw e
      end
  end.

(** How the promise of [load] settles: with the views, with the error of
    an [addItem], or with the [TypeError] of [item.Cast] on [null]. *)
Inductive Loaded :=
  | LoadFulfilled (views : list Item)
  | LoadRejected (e : Error)
  | LoadTypeError.

(** [load(model, preserveNames)], [items] being [model.GetItems()].  The
    state returned is the one the database is in once its queue has run
    every [addItem] that [loadItems] enqueued; it runs them also when
    the promise of [load] itself is rejected. *)
Definition load (items : list C3dItem) (preserveNames : bool) (s : State)
    : State * Loaded :=
  let entries :=
    (λ '(model, name), (model, if preserveNames then Some name else None))
      <$> fst (loadItems (Some <$> items)) in
  let '(s', results) := addItems entries s in
  (s', if snd (loadItems (Some <$> items))
       then match all results with
            | Ok views => LoadFulfilled views
            | Throw e => LoadRejected e
            end
       else LoadTypeError).

(** No [Instance] within the item lacks its item, so that [loadItems]
    never meets [null]. *)
Fixpoint nullFree (item : C3dItem) : bool :=
  match item with
  | C3dLeaf _ _ => true
  | C3dAssembly items => forallb nullFree items
  | C3dInstance None => false
  | C3dInstance (Some item) => nullFree item
  end.

Definition entryNullFree (entry : option C3dItem) : bool :=
  match entry with Some item => nullFree item | None => false end.

(** The [addItem] calls of [load], as operations of a session. *)
Definition loadOps (items : list C3dItem) (preserveNames : bool) : list Op :=
  (λ '(model, name), AddItem model user (if preserveNames then Some name else None))
    <$> fst (loadItems (Some <$> items)).

(** ** What the stored entries keep true *)

(** Every view stored in [geometryModel] carries the id it is stored
    under, an id below [p], and every automatic id is that of a stored
    item. *)
Definition coherent (p : Z) (k : Contents) : Prop :=
  (∀ id view model, geometryEntries k !! id = Some (view, model) →
     simpleName view = id ∧ id < p) ∧
  automaticEntries k ⊆ dom (geometryEntries k).

Definition kept (c : Session) : Prop :=
  coherent (positiveCounter (this (state c))) (contents (state c)) ∧
  Forall (λ m, coherent (positiveCounter (this (state c)))
                 (mementoContents (heap (state c)) m))
         (mementos c).

(** [version2name] has an entry for exactly the ids of the stored items. *)
Definition tracked (c : Session) : Prop :=
  dom (versions (state c)) = dom (geometry (state c)) ∧
  Forall (λ m, dom (versionEntries (mementoContents (heap (state c)) m)) =
               dom (geometryEntries (mementoContents (heap (state c)) m)))
         (mementos c).

(** An operation applied under its precondition, the item it looks up
    being there. *)
Definition guarded (op : Op) (c : Session) : Prop :=
  match op with
  | ReplaceItem from _ => is_Some (versions (state c) !! simpleName from)
  | RemoveItem view _ => is_Some (versions (state c) !! simpleName view)
  | _ => True
  end.

Fixpoint guardedly (ops : list Op) (c : Session) : Prop :=
  match ops with
  | [] => True
  | op :: ops => guarded op c ∧ guardedly ops (perform op c)
  end.

End Database.

Arguments object : clear implicits.
Arguments State : clear implicits.
Arguments Session : clear implicits.
Arguments Contents : clear implicits.
Arguments Op : clear implicits.
Arguments C3dItem : clear implicits.
Arguments AddItem {Model} model agent name.
Arguments ReplaceItem {Model} from model.
Arguments RemoveItem {Model} view agent.
Arguments AddTemporaryItem {Model} model ancestor into.
Arguments ClearTemporaryObjects {Model}.
Arguments SaveToMemento {Model}.
Arguments RestoreFromMemento {Model} i.
Arguments M : clear implicits.

(** ** A small instance, for examples

    Models carry no data; a view is a solid with one face and one control
    point named after the model's kind, which the builder records. *)

Definition exampleView (id : SimpleName) : Item :=
  {| simpleName := id; isSolid := true; allFaces := ["face"]; controlPoints := ["point"] |}.

Definition exampleBuild (model : unit) (name : SimpleName)
    (topology : gmap string unit) (points : gmap string unit)
    : option (Item * gmap string unit * gmap string unit) :=
  Some (exampleView 0, <["face" := tt]> topology, <["point" := tt]> points).

Definition exampleBuildTemporary (model : unit) (tempId : SimpleName) : option Item :=
  Some (exampleView tempId).

Definition exampleRun (ops : list (Op unit)) : Session unit unit unit :=
  run exampleBuild exampleBuildTemporary ops (start new).


End GeometryDatabase.

Module CommandExecutor.

(** Modelled from the spec: the lifecycle state of a [Command]
    (src/command/Command.ts is not among the sources).  Section 4.2 names
    the states; ['None'] is written [None']. *)
Inductive State := None' | Started | Finished | Cancelled | Interrupted.

(** Modelled from the spec: how the effect routine of a command settles
    (section 4.2: it completes without throwing, or it throws). *)
Inductive Outcome := Resolves | Rejects.

(** Modelled from the spec: the promise an [enqueue] call returned
    (section 4.3 step 6). *)
Inductive Handle := Pending | Resolved | Rejected.

(** Commands are objects; a natural number stands for the identity of one. *)
Abbreviation Command := nat.

(** Modelled from the spec: the [CommandExecutor]
    (src/command/CommandExecutor.ts is not among the sources; its jest test
    is).  Section 4.3 gives the behaviour of [enqueue].  Read alone, its
    step 1 would also interrupt a command that is only waiting; the test
    'enqueue cancels active commands and executes the most recent'
    asserts that such a command stays in ['None'], and the model follows
    the test: the command being executed ([active]) is the one a newer
    command interrupts, and a command enqueued behind it ([next]) that is
    overtaken by a still newer one never starts.

    [states] is the [state] field of every command (['None'] when absent),
    [outcomes] what each command's effect routine has been told to settle
    with ([command.delay.resolve()] / [.reject()] in the test; an
    [ErroringCommand] rejects and a [FastCommand] resolves from the
    start), [running] whether the queue has begun the effect routine of
    [active], [handles] the promises returned by [enqueue], [history] the
    checkpoints appended to the History, labelled by command. *)
Record Executor := {
  states : gmap Command State;
  outcomes : gmap Command Outcome;
  active : option Command;
  running : bool;
  next : option Command;
  handles : gmap Command Handle;
  history : list Command;
}.

Definition stateOf (w : Executor) (c : Command) : State :=
  default None' (states w !! c).

Definition handleOf (w : Executor) (c : Command) : option Handle :=
  handles w !! c.


(** Modelled from the spec: section 4.2, [None -> Interrupted] and
    [Started -> Interrupted]; terminal states do not transition further. *)
Definition interrupt (st : State) : State :=
  match st with
  | None' | Started => Interrupted
  | _ => st
  end.

(** Modelled from the spec: section 4.2, [None -> Started]. *)
Definition begin (st : State) : State :=
  match st with
  | None' => Started
  | _ => st
  end.

(** Modelled from the spec: section 4.3 step 5, success gives [Finished],
    a thrown error [Cancelled], and a command already [Interrupted] stays
    so however its execution settles. *)
Definition settle (st : State) (o : Outcome) : State :=
  match st with
  | None' | Started =>
      match o with Resolves => Finished | Rejects => Cancelled end
  | _ => st
  end.

(** Modelled from the spec: section 4.3 step 5, the Originator's
    checkpoint is invoked when the command becomes [Finished]. *)
Definition checkpoint (st : State) (o : Outcome) : bool :=
  match st, o with
  | (None' | Started), Resolves => true
  | _, _ => false
  end.

(** Modelled from the spec: what can happen to an executor (the control
    flow of section 2): a caller enqueues a command; the effect routine
    of a command is told how to settle; the queue reaches the active
    command; the executor handles the settlement of the running effect
    routine. *)
Inductive Event :=
  | Enqueue (c : Command)
  | Resolve (c : Command)
  | Reject (c : Command)
  | Start
  | Settle.

(** Modelled from the spec: [new CommandExecutor(editor)], with no
    command active and an empty History. *)
Definition init : Executor :=
  {| states := ∅; outcomes := ∅; active := None; running := false;
     next := None; handles := ∅; history := [] |}.

(** Modelled from the spec: [CommandExecutor.enqueue], section 4.3 steps
    1 to 3.  The active command is marked [Interrupted] at once and is not
    awaited.  With no active command the new one becomes active; behind
    an active command it takes the place of the one waiting there, whose
    promise resolves although it never ran. *)
Definition enqueue (c : Command) (w : Executor) : Executor :=
  match active w with
  | Some a =>
      {| states := <[a := interrupt (stateOf w a)]> (states w);
         outcomes := outcomes w;
         active := Some a;
         running := running w;
         next := Some c;
         handles := <[c := Pending]>
                      (match next w with
                       | Some p => <[p := Resolved]> (handles w)
                       | None => handles w
                       end);
         history := history w |}
  | None =>
      {| states := states w;
         outcomes := outcomes w;
         active := Some c;
         running := false;
         next := next w;
         handles := <[c := Pending]> (handles w);
         history := history w |}
  end.

(** Modelled from the spec: [Delay.resolve] / [Delay.reject]
    (src/util/SequentialExecutor.ts is not among the sources; section 9
    calls it the reject/resolve "delay" pattern).  A promise settles once:
    a second [resolve] or [reject] is ignored. *)
Definition tell (c : Command) (o : Outcome) (w : Executor) : Executor :=
  {| states := states w;
     outcomes := match outcomes w !! c with
                 | Some _ => outcomes w
                 | None => <[c := o]> (outcomes w)
                 end;
     active := active w; running := running w; next := next w;
     handles := handles w; history := history w |}.

(** Modelled from the spec: section 4.3 step 4, the queue reaches the
    active command and its effect routine begins. *)
Definition startActive (w : Executor) : Executor :=
  match active w with
  | Some a =>
      if running w then w
      else {| states := <[a := begin (stateOf w a)]> (states w);
              outcomes := outcomes w;
              active := Some a; running := true; next := next w;
              handles := handles w; history := history w |}
  | None => w
  end.

(** Modelled from the spec: section 4.3 steps 5 and 6, the running
    effect routine has settled; the promise of its [enqueue] resolves
    whatever the outcome, and the command waiting behind becomes active. *)
Definition settleActive (w : Executor) : Executor :=
  match active w with
  | Some a =>
      if running w then
        match outcomes w !! a with
        | Some o =>
            {| states := <[a := settle (stateOf w a) o]> (states w);
               outcomes := outcomes w;
               active := next w; running := false; next := None;
               handles := <[a := Resolved]> (handles w);
               history := if checkpoint (stateOf w a) o
                          then history w ++ [a] else history w |}
        | None => w
        end
      else w
  | None => w
  end.

(** Modelled from the spec: one event of the control flow of section 2. *)
Definition step (e : Event) (w : Executor) : Executor :=
  match e with
  | Enqueue c => enqueue c w
  | Resolve c => tell c Resolves w
  | Reject c => tell c Rejects w
  | Start => startActive w
  | Settle => settleActive w
  end.

Fixpoint run (es : list Event) (w : Executor) : Executor :=
  match es with
  | [] => w
  | e :: es => run es (step e w)
  end.

(** No command is being executed and none is waiting. *)
Definition idle (w : Executor) : Prop :=
  active w = None ∧ next w = None.


(** A command whose effect routine settles with [o]. *)
Definition told (o : Outcome) (c : Command) : Event :=
  match o with Resolves => Resolve c | Rejects => Reject c end.

(** The trace of the test 'enqueue cancels active commands and executes
    the most recent', generalised: the commands [c1], [mid] and [cN] are
    enqueued in immediate succession; then the effect routine of each is
    told how to settle; then the queue runs what it can. *)
Definition enqueues (c1 : Command) (mid : list Command) (cN : Command) : list Event :=
  Enqueue c1 :: (Enqueue <$> mid) ++ [Enqueue cN].

Definition settlements (o1 : Outcome) (c1 : Command) (om : Command → Outcome)
    (mid : list Command) (oN : Outcome) (cN : Command) : list Event :=
  told o1 c1 :: ((λ c, told (om c) c) <$> mid) ++ [told oN cN; Start; Settle; Start; Settle].


End CommandExecutor.

(** * Facts about the geometry database *)

Import GeometryDatabase.

Section GeometryDatabaseFacts.

Context {Model TopologyData ControlPointData : Type}.

Variable build :
  Model → SimpleName → gmap string TopologyData → gmap string ControlPointData →
  option (Item * gmap string TopologyData * gmap string ControlPointData).
Variable buildTemporary : Model → SimpleName → option Item.

#[local] Abbreviation object := (object Model TopologyData ControlPointData).
#[local] Abbreviation Heap := (gmap loc object).
#[local] Abbreviation State := (State Model TopologyData ControlPointData).
#[local] Abbreviation Body := (M Model TopologyData ControlPointData).

Implicit Types (h : Heap) (s : State) (l : loc) (f : object → object).

(** ** Reading through an in-place mutation *)

Lemma versionsAt_alter_frame f l l' h :
  spares KVersions f → versionsAt (alter f l h) l' = versionsAt h l'.
Proof.
  intros Hf. unfold versionsAt.
  destruct (decide (l = l')) as [->|Hne]; [|by rewrite lookup_alter_ne].
  rewrite lookup_alter_eq. destruct (h !! l') as [o|]; [simpl|done].
  destruct (Hf o) as [Hk Hid].
  destruct o; try (by rewrite Hid); destruct (f _); done.
Qed.

Lemma namesAt_alter_frame f l l' h :
  spares KNames f → namesAt (alter f l h) l' = namesAt h l'.
Proof.
  intros Hf. unfold namesAt.
  destruct (decide (l = l')) as [->|Hne]; [|by rewrite lookup_alter_ne].
  rewrite lookup_alter_eq. destruct (h !! l') as [o|]; [simpl|done].
  destruct (Hf o) as [Hk Hid].
  destruct o; try (by rewrite Hid); destruct (f _); done.
Qed.

Lemma versionsAt_alter_hit g l h :
  holds h l KVersions →
  versionsAt (alter (onVersions g) l h) l = g (versionsAt h l).
Proof.
  unfold holds, versionsAt. rewrite lookup_alter_eq.
  destruct (h !! l) as [[]|]; naive_solver.
Qed.

Lemma namesAt_alter_hit g l h :
  holds h l KNames →
  namesAt (alter (onNames g) l h) l = g (namesAt h l).
Proof.
  unfold holds, namesAt. rewrite lookup_alter_eq.
  destruct (h !! l) as [[]|]; naive_solver.
Qed.

Lemma geometryAt_alter_frame f l l' h :
  spares KGeometry f → geometryAt (alter f l h) l' = geometryAt h l'.
Proof.
  intros Hf. unfold geometryAt.
  destruct (decide (l = l')) as [->|Hne]; [|by rewrite lookup_alter_ne].
  rewrite lookup_alter_eq. destruct (h !! l') as [o|]; [simpl|done].
  destruct (Hf o) as [Hk Hid].
  destruct o; try (by rewrite Hid); destruct (f _); done.
Qed.

Lemma geometryAt_alter_hit g l h :
  holds h l KGeometry →
  geometryAt (alter (onGeometry g) l h) l = g (geometryAt h l).
Proof.
  unfold holds, geometryAt. rewrite lookup_alter_eq.
  destruct (h !! l) as [[]|]; naive_solver.
Qed.

Lemma holds_alter f l l' k h :
  preserving f → holds h l' k → holds (alter f l h) l' k.
Proof.
  intros Hf. unfold holds.
  destruct (decide (l = l')) as [->|Hne]; [|by rewrite lookup_alter_ne].
  rewrite lookup_alter_eq. destruct (h !! l'); simpl; [|done].
  by rewrite Hf.
Qed.

Lemma spares_preserving k f : spares k f → preserving f.
Proof. intros Hf o. apply Hf. Qed.

(** ** Method bodies only update the state *)

Lemma updates_refl s : updates s s.
Proof. split; [done|]. intros l o Hl. by exists o. Qed.

Lemma updates_trans s1 s2 s3 : updates s1 s2 → updates s2 s3 → updates s1 s3.
Proof.
  intros [Hl12 H12] [Hl23 H23]. split; [congruence|].
  intros l o Hl.
  destruct (H12 l o Hl) as (o' & Hl' & Hk' & Hf').
  destruct (H23 l o' Hl') as (o'' & Hl'' & Hk'' & Hf'').
  exists o''. split_and!; [done|congruence|].
  intros Hout. rewrite Hf'', Hf'; [done|done|by rewrite Hl12].
Qed.

Lemma respects_ret {A} (a : A) : respects (ret a : Body A).
Proof. intros s s' r [= <- _]. apply updates_refl. Qed.

Lemma respects_throw {A} e : respects (throw e : Body A).
Proof. intros s s' r [= <- _]. apply updates_refl. Qed.

Lemma respects_gets {A} (g : State → A) : respects (gets g).
Proof. intros s s' r [= <- _]. apply updates_refl. Qed.

Lemma respects_bind {A B} (c : Body A) (k : A → Body B) :
  respects c → (∀ a, respects (k a)) → respects (bind c k).
Proof.
  intros Hc Hk s s' r. unfold bind.
  destruct (c s) as [s1 [a|e]] eqn:Hcs; intros Hr.
  - eapply updates_trans; [by eapply Hc | by eapply Hk].
  - injection Hr as <- _. by eapply Hc.
Qed.

Lemma respects_modify (g : State → State) :
  (∀ s, heap (g s) = heap s ∧ locsOf (this (g s)) = locsOf (this s)) →
  respects (modify g).
Proof.
  intros Hg s s' r [= <- _]. destruct (Hg s) as [Hh Hl].
  split; [done|]. intros l o Hlo. exists o. by rewrite Hh.
Qed.

Lemma respects_mutate (field : GeometryDatabase → loc) f :
  (∀ d, field d ∈ locsOf d) → preserving f → respects (mutate field f).
Proof.
  intros Hfield Hf s s' r [= <- _]. split; [done|]. simpl.
  intros l o Hl. destruct (decide (field (this s) = l)) as [<-|Hne].
  - exists (f o). rewrite lookup_alter_eq, Hl. split_and!; [done|apply Hf|].
    intros []. apply Hfield.
  - exists o. by rewrite lookup_alter_ne.
Qed.

Ltac respects_step :=
  first
    [ apply respects_ret | apply respects_throw | apply respects_gets
    | apply respects_bind; [|intros ?]
    | apply respects_modify; by intros ?
    | apply respects_mutate; [intros ?; unfold locsOf; set_solver | by intros []]
    | match goal with
      | |- respects (match ?x with _ => _ end) => destruct x
      | |- respects (if ?x then _ else _) => destruct x
      | |- respects (let _ := _ in _) => simpl
      end ].

Lemma insertItem_respects model agent name :
  respects (insertItem build model agent name).
Proof. unfold insertItem. repeat respects_step. Qed.

Lemma addItem_respects model agent name :
  respects (addItem build model agent name).
Proof.
  unfold addItem. apply respects_bind; [apply insertItem_respects|intros ?].
  repeat respects_step.
Qed.

Lemma _removeItem_respects view agent :
  respects (_removeItem view agent : Body unit).
Proof.
  unfold _removeItem, removeTopologyItems, removeControlPoints.
  repeat respects_step.
Qed.

Lemma replaceItem_respects from model :
  respects (replaceItem build from model).
Proof.
  unfold replaceItem, version2name_get.
  apply respects_bind; [apply insertItem_respects|intros ?].
  apply respects_bind; [apply _removeItem_respects|intros ?].
  repeat respects_step.
Qed.

Lemma removeItem_respects view agent :
  respects (removeItem view agent : Body unit).
Proof.
  unfold removeItem, version2name_get.
  apply respects_bind; [apply _removeItem_respects|intros ?].
  repeat respects_step.
Qed.

Lemma addTemporaryItem_respects model ancestor into :
  respects (addTemporaryItem buildTemporary model ancestor into : Body _).
Proof.
  unfold addTemporaryItem. repeat respects_step.
  apply respects_modify. intros s. by destruct into.
Qed.

Lemma clearTemporaryObjects_respects :
  respects (clearTemporaryObjects : Body unit).
Proof. unfold clearTemporaryObjects. repeat respects_step. Qed.

Lemma updates_typed s s' : updates s s' → typed s → typed s'.
Proof.
  intros [Hlocs Hupd] Ht. unfold locsOf in Hlocs.
  injection Hlocs as Hg Hv Hn Ha Ht' Hc.
  assert (∀ l k, holds (heap s) l k → holds (heap s') l k) as Hkeep.
  { unfold holds. intros l k Hl.
    destruct (heap s !! l) as [o|] eqn:Ho; [|done].
    destruct (Hupd l o Ho) as (o' & -> & Hk & _). simpl in *. congruence. }
  unfold typed in *. rewrite Hg, Hv, Hn, Ha, Ht', Hc. naive_solver.
Qed.

(** ** What each method does to the name indices and the counters *)

Ltac spares_tac := intros []; by split.

Ltac holds_tac :=
  repeat (apply holds_alter; [by intros []|]);
  first [assumption | match goal with H : typed _ |- _ => apply H end].

Ltac read_heap :=
  repeat first
    [ rewrite geometryAt_alter_frame by spares_tac
    | rewrite geometryAt_alter_hit by holds_tac
    | rewrite versionsAt_alter_frame by spares_tac
    | rewrite namesAt_alter_frame by spares_tac
    | rewrite versionsAt_alter_hit by holds_tac
    | rewrite namesAt_alter_hit by holds_tac ].

Ltac run_body :=
  unfold bind, gets, modify, mutate, ret, throw, withHeap; simpl.

Lemma insertItem_spec model agent name s s' r :
  insertItem build model agent name s = (s', r) →
  positiveCounter (this s') = counterAfterInsert name (this s) ∧
  negativeCounter (this s') = negativeCounter (this s) ∧
  versions s' = versions s ∧ names s' = names s ∧
  match build model (insertedName name (this s)) (topology s) (points s) with
  | Some (view, _, _) => r = Ok (withSimpleName (insertedName name (this s)) view)
  | None => r = Throw MeshesFailed
  end.
Proof.
  unfold insertItem, versions, names, topology, points. run_body.
  destruct (build _ _ _ _) as [[[view topo] pts]|]; [destruct agent|];
    run_body; intros [= <- <-]; simpl; by read_heap.
Qed.

Lemma _removeItem_spec view agent s s' r :
  _removeItem view agent s = (s', r) →
  this s' = this s ∧ versions s' = versions s ∧ names s' = names s ∧ r = Ok tt.
Proof.
  unfold _removeItem, removeTopologyItems, removeControlPoints, versions, names.
  destruct (isSolid view); run_body; intros [= <- <-]; simpl; by read_heap.
Qed.

Lemma addItem_spec model agent name s s' r :
  typed s →
  addItem build model agent name s = (s', r) →
  positiveCounter (this s') = counterAfterInsert name (this s) ∧
  negativeCounter (this s') = negativeCounter (this s) ∧
  match r with
  | Ok view =>
      simpleName view = insertedName name (this s) ∧
      versions s' = <[simpleName view := Some (simpleName view)]> (versions s) ∧
      names s' = <[Some (simpleName view) := simpleName view]> (names s)
  | Throw _ => versions s' = versions s ∧ names s' = names s
  end.
Proof.
  intros Ht. unfold addItem, bind at 1.
  destruct (insertItem _ _ _ _ s) as [s1 r1] eqn:Hins.
  pose proof (insertItem_respects _ _ _ _ _ _ Hins) as Hupd.
  pose proof (updates_typed _ _ Hupd Ht) as Ht1.
  destruct (insertItem_spec _ _ _ _ _ _ Hins) as (Hp & Hn & Hv & Hm & Hr).
  destruct r1 as [view|e].
  - run_body. intros [= <- <-]. simpl. split_and!; try done.
    + destruct (build _ _ _ _) as [[[? ?] ?]|]; by simplify_eq.
    + unfold versions in *. simpl. read_heap. by rewrite Hv.
    + unfold names in *. simpl. read_heap. by rewrite Hm.
  - by intros [= <- <-].
Qed.

Lemma replaceItem_spec from model s s' r :
  typed s →
  replaceItem build from model s = (s', r) →
  positiveCounter (this s') = positiveCounter (this s) + 1 ∧
  negativeCounter (this s') = negativeCounter (this s) ∧
  match r with
  | Ok to =>
      let name := mjoin (versions s !! simpleName from) in
      simpleName to = positiveCounter (this s) ∧
      versions s' = <[simpleName to := name]> (delete (simpleName from) (versions s)) ∧
      names s' = <[name := simpleName to]> (names s)
  | Throw _ => versions s' = versions s ∧ names s' = names s
  end.
Proof.
  intros Ht. unfold replaceItem, bind at 1.
  destruct (insertItem _ _ _ _ s) as [s1 r1] eqn:Hins.
  pose proof (updates_typed _ _ (insertItem_respects _ _ _ _ _ _ Hins) Ht) as Ht1.
  destruct (insertItem_spec _ _ _ _ _ _ Hins) as (Hp & Hn & Hv & Hm & Hr).
  destruct r1 as [to|e]; [|by intros [= <- <-]].
  unfold bind at 1.
  destruct (_removeItem from user s1) as [s2 r2] eqn:Hrem.
  pose proof (updates_typed _ _ (_removeItem_respects _ _ _ _ _ Hrem) Ht1) as Ht2.
  destruct (_removeItem_spec _ _ _ _ _ Hrem) as (Hthis & Hv2 & Hm2 & ->).
  unfold version2name_get. run_body. intros [= <- <-]. simpl.
  unfold typed, versions, names in *. rewrite Hthis in *.
  destruct Ht2 as (? & ? & ? & ? & ? & ?). split_and!; try done.
  - destruct (build _ _ _ _) as [[[? ?] ?]|]; by simplify_eq.
  - simpl. read_heap. by rewrite Hv2, Hv.
  - simpl. read_heap. by rewrite Hv2, Hm2, Hv, Hm.
Qed.


Lemma removeItem_spec view agent s s' r :
  typed s →
  removeItem view agent s = (s', r) →
  positiveCounter (this s') = positiveCounter (this s) ∧
  negativeCounter (this s') = negativeCounter (this s) ∧
  versions s' = delete (simpleName view) (versions s) ∧
  names s' = delete (mjoin (versions s !! simpleName view)) (names s) ∧
  r = Ok tt.
Proof.
  intros Ht. unfold removeItem, bind at 1.
  destruct (_removeItem view agent s) as [s1 r1] eqn:Hrem.
  pose proof (updates_typed _ _ (_removeItem_respects _ _ _ _ _ Hrem) Ht) as Ht1.
  destruct (_removeItem_spec _ _ _ _ _ Hrem) as (Hthis & Hv & Hm & ->).
  unfold version2name_get. run_body. intros [= <- <-]. simpl.
  unfold typed, versions, names in *. rewrite Hthis in *.
  destruct Ht1 as (? & ? & ? & ? & ? & ?). split_and!; try done.
  - simpl. read_heap. by rewrite Hv.
  - simpl. read_heap. by rewrite Hv, Hm.
Qed.

Lemma addTemporaryItem_spec model ancestor into s s' r :
  addTemporaryItem buildTemporary model ancestor into s = (s', r) →
  heap s' = heap s ∧ locsOf (this s') = locsOf (this s) ∧
  positiveCounter (this s') = positiveCounter (this s) ∧
  negativeCounter (this s') = negativeCounter (this s) - 1 ∧
  ∀ tempId view, r = Ok (tempId, view) → tempId = negativeCounter (this s).
Proof.
  unfold addTemporaryItem. run_body.
  destruct (buildTemporary _ _); run_body; intros [= <- <-];
    destruct into; simpl; split_and!; try done; by intros ?? [= <- _].
Qed.

Lemma clearTemporaryObjects_spec s s' r :
  clearTemporaryObjects s = (s', r) →
  heap s' = heap s ∧ locsOf (this s') = locsOf (this s) ∧
  positiveCounter (this s') = positiveCounter (this s) ∧
  negativeCounter (this s') = negativeCounter (this s).
Proof. unfold clearTemporaryObjects. run_body. by intros [= <- <-]. Qed.

(** ** Copies and mementos *)

Lemma lookup_extend h h' l : h ⊆ h' → is_Some (h !! l) → h' !! l = h !! l.
Proof. intros Hsub [o Ho]. rewrite Ho. by eapply lookup_weaken. Qed.

Lemma holds_is_Some h l k : holds h l k → is_Some (h !! l).
Proof. unfold holds. destruct (h !! l); naive_solver. Qed.

Lemma holds_extend h h' l k : h ⊆ h' → holds h l k → holds h' l k.
Proof.
  intros Hsub Hl. unfold holds.
  by rewrite (lookup_extend h h' l Hsub (holds_is_Some _ _ _ Hl)).
Qed.

Lemma contentsAt_extend h h' l :
  h ⊆ h' → is_Some (h !! l) →
  geometryAt h' l = geometryAt h l ∧ versionsAt h' l = versionsAt h l ∧
  namesAt h' l = namesAt h l ∧ setAt h' l = setAt h l ∧
  topologyAt h' l = topologyAt h l ∧ controlPointsAt h' l = controlPointsAt h l.
Proof.
  intros Hsub Hl.
  unfold geometryAt, versionsAt, namesAt, setAt, topologyAt, controlPointsAt.
  by rewrite (lookup_extend h h' l Hsub Hl).
Qed.

Lemma copyOf_spec (read : Heap → loc → object) l s s' r :
  copyOf read l s = (s', r) →
  ∃ l', r = Ok l' ∧ this s' = this s ∧ heap s ⊆ heap s' ∧
        heap s !! l' = None ∧ heap s' !! l' = Some (read (heap s) l).
Proof.
  unfold copyOf, alloc, withHeap. intros [= <- <-]. simpl.
  pose proof (is_fresh (dom (heap s))) as Hfresh.
  apply not_elem_of_dom in Hfresh.
  eexists. split_and!; try done.
  - by apply insert_subseteq.
  - by rewrite lookup_insert_eq.
Qed.

Lemma mementoContents_extend h h' m :
  h ⊆ h' → (∀ l, l ∈ mementoLocs m → is_Some (h !! l)) →
  mementoContents h' m = mementoContents h m.
Proof.
  intros Hsub Hlive. unfold mementoContents, mementoLocs in *.
  f_equal; eapply contentsAt_extend; try done; apply Hlive; set_solver.
Qed.

Lemma contents_extend s s' :
  heap s ⊆ heap s' → this s' = this s → typed s → contents s' = contents s.
Proof.
  intros Hsub Hthis (Hg & Hv & Hn & Ha & Ht & Hc).
  unfold contents, geometry, versions, names, topology, points, automaticSet.
  rewrite Hthis.
  f_equal; eapply contentsAt_extend; try done; by eapply holds_is_Some.
Qed.

Lemma typed_extend s s' :
  heap s ⊆ heap s' → this s' = this s → typed s → typed s'.
Proof.
  intros Hsub Hthis Ht. unfold typed in *. rewrite Hthis.
  destruct Ht as (? & ? & ? & ? & ? & ?).
  split_and!; by eapply holds_extend.
Qed.

(** A copy made while the heap grew from [h0]: what it read of an
    object of [h0] is what [h0] held, and it is new to [h0]. *)
Lemma copyOf_since h0 (read : Heap → loc → object) l s s' r :
  h0 ⊆ heap s →
  copyOf read l s = (s', r) →
  ∃ l', r = Ok l' ∧ this s' = this s ∧ h0 ⊆ heap s' ∧ heap s ⊆ heap s' ∧
        h0 !! l' = None ∧ heap s' !! l' = Some (read (heap s) l).
Proof.
  intros Hsub Hcopy.
  destruct (copyOf_spec _ _ _ _ _ Hcopy) as (l' & -> & ? & ? & ? & ?).
  exists l'. split_and!; try done.
  - by etrans.
  - by eapply lookup_weaken_None.
Qed.

Ltac copy_step h0 :=
  unfold bind at 1; cbv beta;
  match goal with
  | |- context [copyOf ?rd ?l ?s] =>
      let Hc := fresh "Hc" in
      destruct (copyOf rd l s) as [? ?] eqn:Hc;
      apply (copyOf_since h0) in Hc as (? & -> & ? & ? & ? & ? & ?); [|done]
  end.

Ltac sub_chain :=
  solve [ done
        | match goal with
          | H : ?y ⊆ ?z |- ?x ⊆ ?z => transitivity y; [sub_chain | exact H]
          end ].

(** Look an allocated object up in a later heap. *)
Ltac read_copy :=
  match goal with
  | H : heap ?sk !! ?x = Some ?o |- context [heap ?sn !! ?x] =>
      rewrite (lookup_weaken (heap sk) (heap sn) x o H ltac:(sub_chain))
  end.

Lemma saveToMemento_spec s s' r :
  typed s →
  saveToMemento s = (s', r) →
  ∃ m, r = Ok m ∧ this s' = this s ∧ heap s ⊆ heap s' ∧
       mementoContents (heap s') m = contents s ∧
       ∀ l, l ∈ mementoLocs m → heap s !! l = None ∧ is_Some (heap s' !! l).
Proof.
  intros Ht. unfold saveToMemento.
  do 6 copy_step (heap s). run_body. intros [= <- <-].
  repeat match goal with H : this _ = this _ |- _ => rewrite H in *; clear H end.
  destruct Ht as (Hg & Hv & Hn & Ha & Ht & Hc).
  eexists. split_and!; [done | done | done | |].
  - unfold mementoContents, contents, geometry, versions, names, topology,
      points, automaticSet. simpl.
    f_equal;
      [ unfold geometryAt at 1 | unfold versionsAt at 1 | unfold namesAt at 1
      | unfold topologyAt at 1 | unfold controlPointsAt at 1 | unfold setAt at 1 ];
      read_copy; try done;
      eapply contentsAt_extend; try done; by eapply holds_is_Some.
  - intros l Hl. unfold mementoLocs in Hl. simpl in Hl.
    set_unfold. destruct_or!; subst l; (split; [done|]); read_copy; by eexists.
Qed.


Lemma restoreFromMemento_spec m s s' r :
  (∀ l, l ∈ mementoLocs m → is_Some (heap s !! l)) →
  restoreFromMemento m s = (s', r) →
  r = Ok tt ∧ heap s ⊆ heap s' ∧ typed s' ∧
  contents s' = mementoContents (heap s) m ∧
  (∀ l, l ∈ locsOf (this s') → heap s !! l = None) ∧
  positiveCounter (this s') = positiveCounter (this s) ∧
  negativeCounter (this s') = negativeCounter (this s).
Proof.
  intros Hlive. unfold restoreFromMemento.
  do 6 copy_step (heap s). run_body. intros [= <- <-].
  repeat match goal with H : this _ = this _ |- _ => rewrite H in *; clear H end.
  unfold mementoLocs in Hlive.
  split_and!; try done.
  - unfold typed, holds. simpl. split_and!; by read_copy.
  - unfold mementoContents, contents, geometry, versions, names, topology,
      points, automaticSet. simpl.
    f_equal;
      [ unfold geometryAt at 1 | unfold versionsAt at 1 | unfold namesAt at 1
      | unfold topologyAt at 1 | unfold controlPointsAt at 1 | unfold setAt at 1 ];
      read_copy; try done;
      eapply contentsAt_extend; try done; apply Hlive; set_solver.
  - intros l Hl. unfold locsOf in Hl. simpl in Hl.
    set_unfold. by destruct_or!; subst l.
Qed.

(** ** Mementos held by a caller *)

Lemma detached_updates s s' m :
  updates s s' → detached s m →
  detached s' m ∧ mementoContents (heap s') m = mementoContents (heap s) m.
Proof.
  intros [Hlocs Hupd] Hdet.
  assert (∀ l, l ∈ mementoLocs m → heap s' !! l = heap s !! l ∧ is_Some (heap s !! l))
    as Hsame.
  { intros l Hl. destruct (Hdet l Hl) as [[o Ho]%elem_of_dom Hout].
    destruct (Hupd l o Ho) as (o' & Ho' & _ & Heq).
    rewrite Ho, Ho', (Heq Hout). eauto. }
  split.
  - intros l Hl. destruct (Hdet l Hl) as [_ Hout], (Hsame l Hl) as [Heq Hsome].
    split; [|by rewrite Hlocs]. apply elem_of_dom. by rewrite Heq.
  - unfold mementoContents, geometryAt, versionsAt, namesAt, setAt, topologyAt,
      controlPointsAt, mementoLocs in *.
    assert (∀ l, l ∈ mementoLocs m → heap s' !! l = heap s !! l) as Heq
      by (intros l Hl; apply Hsame, Hl).
    unfold mementoLocs in Heq.
    f_equal; (rewrite Heq; [done|set_solver]).
Qed.

Lemma detached_extend s s' m :
  heap s ⊆ heap s' → (∀ l, l ∈ locsOf (this s') → l ∈ locsOf (this s) ∨ heap s !! l = None) →
  detached s m →
  detached s' m ∧ mementoContents (heap s') m = mementoContents (heap s) m.
Proof.
  intros Hsub Hlocs Hdet. split.
  - intros l Hl. destruct (Hdet l Hl) as [Hdom Hout]. split.
    + by eapply (subseteq_dom _ _ Hsub).
    + intros [Hin|Hnone]%Hlocs; [done|]. by apply not_elem_of_dom in Hnone.
  - apply mementoContents_extend; [done|].
    intros l Hl. apply elem_of_dom, Hdet, Hl.
Qed.

Lemma typed_live s l : typed s → l ∈ locsOf (this s) → is_Some (heap s !! l).
Proof.
  intros (? & ? & ? & ? & ? & ?) Hl. unfold locsOf in Hl.
  set_unfold. destruct_or!; subst l; by eapply holds_is_Some.
Qed.

Lemma keep_updates s s' (ms : list GeometryMemento) :
  typed s → Forall (detached s) ms → updates s s' →
  typed s' ∧ Forall (detached s') ms ∧
  ∀ m, m ∈ ms → mementoContents (heap s') m = mementoContents (heap s) m.
Proof.
  intros Ht Hms Hupd. rewrite Forall_forall in Hms. split_and!.
  - by eapply updates_typed.
  - apply Forall_forall. intros m Hm. by eapply detached_updates, Hms.
  - intros m Hm. by eapply detached_updates, Hms.
Qed.

Lemma perform_sound op (c : Session Model TopologyData ControlPointData) :
  sound c →
  sound (perform build buildTemporary op c) ∧
  ∀ m, m ∈ mementos c →
    mementoContents (heap (state (perform build buildTemporary op c))) m =
    mementoContents (heap (state c)) m.
Proof.
  intros [Ht Hms]. unfold sound.
  destruct op as [model agent name|from model|view agent|model anc into| | |i];
    unfold perform; cbv beta iota.
  - destruct (addItem _ _ _ _ _) as [s' r] eqn:Hop.
    apply addItem_respects in Hop.
    destruct (keep_updates _ _ _ Ht Hms Hop) as (? & ? & ?). by destruct r.
  - destruct (replaceItem _ _ _ _) as [s' r] eqn:Hop.
    apply replaceItem_respects in Hop.
    destruct (keep_updates _ _ _ Ht Hms Hop) as (? & ? & ?). by destruct r.
  - destruct (removeItem view agent (state c)) as [s' r] eqn:Hop.
    apply removeItem_respects in Hop.
    by destruct (keep_updates _ _ _ Ht Hms Hop) as (? & ? & ?).
  - destruct (addTemporaryItem _ _ _ _ _) as [s' r] eqn:Hop.
    apply addTemporaryItem_respects in Hop.
    destruct (keep_updates _ _ _ Ht Hms Hop) as (? & ? & ?).
    by destruct r as [[? ?]|].
  - destruct (clearTemporaryObjects (state c)) as [s' r] eqn:Hop.
    apply clearTemporaryObjects_respects in Hop.
    by destruct (keep_updates _ _ _ Ht Hms Hop) as (? & ? & ?).
  - destruct (saveToMemento (state c)) as [s' r] eqn:Hop.
    destruct (saveToMemento_spec _ _ _ Ht Hop) as (m & -> & Hthis & Hsub & Hm & Hnew).
    cbn [state mementos]. rewrite Forall_forall in Hms.
    assert (∀ m0, m0 ∈ mementos c → detached s' m0 ∧
              mementoContents (heap s') m0 = mementoContents (heap (state c)) m0) as Hold.
    { intros m0 Hm0. apply detached_extend; [done| |by apply Hms].
      intros l Hl. left. by rewrite <-Hthis. }
    split_and!.
    + by eapply typed_extend.
    + apply Forall_app. split; [apply Forall_forall; intros m0 Hm0; by apply Hold|].
      apply Forall_singleton. intros l Hl. destruct (Hnew l Hl) as [Hnone Hsome].
      split; [by apply elem_of_dom|]. rewrite Hthis. intros Hin.
      destruct (typed_live _ _ Ht Hin) as [? ?]. congruence.
    + intros m0 Hm0. by apply Hold.
  - destruct (mementos c !! i) as [m|] eqn:Hi; [|done].
    destruct (restoreFromMemento m (state c)) as [s' r] eqn:Hop. cbn [fst state mementos].
    rewrite Forall_forall in Hms.
    assert (detached (state c) m) as Hdet by (eapply Hms, list_elem_of_lookup_2, Hi).
    destruct (restoreFromMemento_spec _ _ _ _
      (λ l Hl, proj1 (elem_of_dom _ _) (proj1 (Hdet l Hl))) Hop)
      as (-> & Hsub & Ht' & Hc & Hfresh & _).
    assert (∀ m0, m0 ∈ mementos c → detached s' m0 ∧
              mementoContents (heap s') m0 = mementoContents (heap (state c)) m0) as Hold.
    { intros m0 Hm0. apply detached_extend; [done| |by apply Hms].
      intros l Hl. right. by apply Hfresh. }
    split_and!; [done| |].
    + apply Forall_forall. intros m0 Hm0. by apply Hold.
    + intros m0 Hm0. by apply Hold.
Qed.

Lemma run_sound ops (c : Session Model TopologyData ControlPointData) :
  sound c →
  sound (run build buildTemporary ops c) ∧
  mementos c `prefix_of` mementos (run build buildTemporary ops c) ∧
  ∀ m, m ∈ mementos c →
    mementoContents (heap (state (run build buildTemporary ops c))) m =
    mementoContents (heap (state c)) m.
Proof.
  revert c. induction ops as [|op ops IH]; intros c Hc; simpl; [done|].
  destruct (perform_sound op c Hc) as [Hc' Hkeep].
  destruct (IH _ Hc') as (Hs & Hpre & Hkeep').
  assert (mementos c `prefix_of` mementos (perform build buildTemporary op c)) as Hp.
  { destruct op; simpl; repeat case_match; simpl; try done.
    by apply prefix_app_r. }
  split_and!; [done|by etrans|].
  intros m Hm. rewrite Hkeep'; [by apply Hkeep|].
  destruct Hp as [k ->]. set_solver.
Qed.

(** ** The counters bound every id *)

Lemma indexedWithin_update (P Q : SimpleName → Prop)
    (vs vs' : gmap SimpleName Name) (ns ns' : gmap Name SimpleName) :
  (∀ i, P i → Q i) →
  indexedWithin P vs ns →
  (∀ v n, vs' !! v = Some n →
     vs !! v = Some n ∨ (Q v ∧ ∀ n', n = Some n' → Q n')) →
  (∀ n v, ns' !! n = Some v →
     ns !! n = Some v ∨ (Q v ∧ ∀ n', n = Some n' → Q n')) →
  indexedWithin Q vs' ns'.
Proof.
  intros HPQ [Hvs Hns] Hvs' Hns'. split.
  - intros v n [Hold|Hnew]%Hvs'; [|done].
    destruct (Hvs v n Hold) as [? Hn]. split; [by apply HPQ|].
    intros n' ->. by apply HPQ, Hn.
  - intros n v [Hold|Hnew]%Hns'; [|done].
    destruct (Hns n v Hold) as [? Hn]. split; [by apply HPQ|].
    intros n' ->. by apply HPQ, Hn.
Qed.

Lemma indexedWithin_mono (P Q : SimpleName → Prop) vs ns :
  (∀ i, P i → Q i) → indexedWithin P vs ns → indexedWithin Q vs ns.
Proof. intros HPQ H. eapply indexedWithin_update; eauto. Qed.

Lemma same_indices s s' :
  heap s' = heap s → locsOf (this s') = locsOf (this s) →
  versions s' = versions s ∧ names s' = names s.
Proof.
  unfold versions, names, locsOf. intros -> [= _ -> -> _ _ _]. done.
Qed.

Lemma counterAfterInsert_bounds name d :
  positiveCounter d ≤ counterAfterInsert name d ∧
  insertedName name d < counterAfterInsert name d.
Proof. destruct name; simpl; lia. Qed.

Lemma perform_indexed (P Q : SimpleName → Prop) op
    (c : Session Model TopologyData ControlPointData) :
  sound c →
  (∀ i, P i → Q i) →
  (∀ id, insertedBy op c = Some id → Q id) →
  indexed P c → indexed Q (perform build buildTemporary op c).
Proof.
  intros Hsound HPQ Hnew [Hidx Hms].
  destruct (perform_sound op c Hsound) as [_ Hkeep].
  destruct Hsound as [Ht Hdet].
  assert (∀ s', (∀ m, m ∈ mementos c →
             mementoContents (heap s') m = mementoContents (heap (state c)) m) →
    Forall (λ m, indexedWithin Q
                   (versionEntries (mementoContents (heap s') m))
                   (nameEntries (mementoContents (heap s') m))) (mementos c)) as Hms'.
  { intros s' Hsame. rewrite Forall_forall in Hms. apply Forall_forall.
    intros m Hm. rewrite (Hsame m Hm). by eapply indexedWithin_mono, Hms, Hm. }
  revert Hkeep Hnew.
  destruct op as [model agent name|from model|view agent|model anc into| | |i];
    unfold perform, indexed, insertedBy; cbv beta iota zeta.
  - destruct (addItem _ _ _ _ _) as [s' r] eqn:Hop.
    destruct (addItem_spec _ _ _ _ _ _ Ht Hop) as (_ & _ & Hr).
    destruct r as [view|e]; cbn [state mementos]; intros Hkeep Hnew.
    + destruct Hr as (Hid & -> & ->). rewrite Hid.
      specialize (Hnew _ eq_refl).
      split; [|by apply Hms'].
      eapply indexedWithin_update; [exact HPQ|exact Hidx| |].
      * intros v n [[<- <-]|[? ?]]%lookup_insert_Some; [right|by left].
        split; [done|]. by intros ? [= <-].
      * intros n v [[<- <-]|[? ?]]%lookup_insert_Some; [right|by left].
        split; [done|]. by intros ? [= <-].
    + destruct Hr as [-> ->]. split; [|by apply Hms'].
      by eapply indexedWithin_mono, Hidx.
  - destruct (replaceItem _ _ _ _) as [s' r] eqn:Hop.
    destruct (replaceItem_spec _ _ _ _ _ Ht Hop) as (_ & _ & Hr).
    destruct r as [to|e]; cbn [state mementos]; intros Hkeep Hnew.
    + destruct Hr as (Hid & -> & ->). rewrite Hid.
      specialize (Hnew _ eq_refl).
      assert (∀ n', mjoin (versions (state c) !! simpleName from) = Some n' → Q n')
        as Hname.
      { intros n' Hj. destruct (versions (state c) !! simpleName from) as [n|] eqn:Hv;
          [|done]. simpl in Hj. subst n.
        destruct Hidx as [Hvs _]. destruct (Hvs _ _ Hv) as [_ Hb].
        by apply HPQ, Hb. }
      split; [|by apply Hms'].
      eapply indexedWithin_update; [exact HPQ|exact Hidx| |].
      * by intros v n [[<- <-]|[? [? ?]%lookup_delete_Some]]%lookup_insert_Some;
          [right|left].
      * by intros n v [[<- <-]|[? ?]]%lookup_insert_Some; [right|left].
    + destruct Hr as [-> ->]. split; [|by apply Hms'].
      by eapply indexedWithin_mono, Hidx.
  - destruct (removeItem view agent (state c)) as [s' r] eqn:Hop.
    destruct (removeItem_spec _ _ _ _ _ Ht Hop) as (_ & _ & Hv & Hm & _).
    cbn [fst state mementos]. intros Hkeep _. rewrite Hv, Hm.
    split; [|by apply Hms'].
    eapply indexedWithin_update; [exact HPQ|exact Hidx| |].
    + intros v n [? ?]%lookup_delete_Some. by left.
    + intros n v [? ?]%lookup_delete_Some. by left.
  - destruct (addTemporaryItem _ _ _ _ _) as [s' r] eqn:Hop.
    destruct (addTemporaryItem_spec _ _ _ _ _ _ Hop) as (Hh & Hl & _).
    destruct (same_indices _ _ Hh Hl) as [Hv Hm].
    destruct r as [[tempId view]|e]; cbn [state mementos];
      intros Hkeep _; rewrite Hv, Hm;
      (split; [by eapply indexedWithin_mono, Hidx|by apply Hms']).
  - destruct (clearTemporaryObjects (state c)) as [s' r] eqn:Hop.
    destruct (clearTemporaryObjects_spec _ _ _ Hop) as (Hh & Hl & _).
    destruct (same_indices _ _ Hh Hl) as [Hv Hm].
    cbn [fst state mementos]. intros Hkeep _. rewrite Hv, Hm.
    split; [by eapply indexedWithin_mono, Hidx|by apply Hms'].
  - destruct (saveToMemento (state c)) as [s' r] eqn:Hop.
    destruct (saveToMemento_spec _ _ _ Ht Hop) as (m & -> & Hthis & Hsub & Hm & Hnew').
    pose proof (contents_extend _ _ Hsub Hthis Ht) as Hc.
    cbn [state mementos]. intros Hkeep _.
    injection Hc as _ -> -> _ _ _.
    split; [by eapply indexedWithin_mono, Hidx|].
    apply Forall_app. split; [by apply Hms'|].
    apply Forall_singleton. rewrite Hm. by eapply indexedWithin_mono, Hidx.
  - destruct (mementos c !! i) as [m|] eqn:Hi;
      [|intros _ _; split; [by eapply indexedWithin_mono, Hidx|by apply Hms']].
    destruct (restoreFromMemento m (state c)) as [s' r] eqn:Hop.
    cbn [fst state mementos]. intros Hkeep _.
    rewrite Forall_forall in Hdet.
    assert (m ∈ mementos c) as Hin by (eapply list_elem_of_lookup_2, Hi).
    destruct (restoreFromMemento_spec _ _ _ _
      (λ l Hl, proj1 (elem_of_dom _ _) (proj1 (Hdet m Hin l Hl))) Hop)
      as (-> & Hsub & Ht' & Hc & _).
    injection Hc as _ -> -> _ _ _.
    split; [|by apply Hms'].
    rewrite Forall_forall in Hms. by eapply indexedWithin_mono, Hms.
Qed.

(** [positiveCounter] never decreases, [negativeCounter] never increases. *)
Lemma perform_counters op (c : Session Model TopologyData ControlPointData) :
  sound c →
  let c' := perform build buildTemporary op c in
  positiveCounter (this (state c)) ≤ positiveCounter (this (state c')) ∧
  negativeCounter (this (state c')) ≤ negativeCounter (this (state c)) ∧
  (∀ id, insertedBy op c = Some id → id < positiveCounter (this (state c'))) ∧
  (issued c' = issued c ∨ ∃ id, insertedBy op c = Some id ∧ issued c' = issued c ++ [id]) ∧
  (temporaryIds c' = temporaryIds c ∨
   temporaryIds c' = temporaryIds c ++ [negativeCounter (this (state c))] ∧
   negativeCounter (this (state c')) = negativeCounter (this (state c)) - 1).
Proof.
  intros [Ht _].
  destruct op as [model agent name|from model|view agent|model anc into| | |i];
    unfold perform, insertedBy; cbv beta iota zeta.
  - destruct (addItem _ _ _ _ _) as [s' r] eqn:Hop.
    destruct (addItem_spec _ _ _ _ _ _ Ht Hop) as (Hp' & Hn' & Hr).
    destruct (counterAfterInsert_bounds name (this (state c))) as [Hle Hlt].
    destruct r as [view|e]; cbn [state issued temporaryIds]; rewrite Hp', Hn';
      (split_and!; [done|done|by intros ? [= <-]| |by left]); [|by left].
    destruct Hr as (-> & _). right. eauto.
  - destruct (replaceItem _ _ _ _) as [s' r] eqn:Hop.
    destruct (replaceItem_spec _ _ _ _ _ Ht Hop) as (Hp' & Hn' & Hr).
    destruct r as [to|e]; cbn [state issued temporaryIds]; rewrite Hp', Hn';
      (split_and!; [lia|done|intros ? [= <-]; lia| |by left]); [|by left].
    destruct Hr as (-> & _). right. eauto.
  - destruct (removeItem view agent (state c)) as [s' r] eqn:Hop.
    destruct (removeItem_spec _ _ _ _ _ Ht Hop) as (Hp' & Hn' & _).
    cbn [fst state issued temporaryIds]. rewrite Hp', Hn'.
    split_and!; try done; by left.
  - destruct (addTemporaryItem _ _ _ _ _) as [s' r] eqn:Hop.
    destruct (addTemporaryItem_spec _ _ _ _ _ _ Hop) as (_ & _ & Hp' & Hn' & Hid).
    destruct r as [[tempId view]|e]; cbn [state issued temporaryIds];
      rewrite Hp', Hn'; (split_and!; [done|lia|done|by left|]); [|by left].
    rewrite (Hid _ _ eq_refl). by right.
  - destruct (clearTemporaryObjects (state c)) as [s' r] eqn:Hop.
    destruct (clearTemporaryObjects_spec _ _ _ Hop) as (_ & _ & Hp' & Hn').
    cbn [fst state issued temporaryIds]. rewrite Hp', Hn'.
    split_and!; try done; by left.
  - destruct (saveToMemento (state c)) as [s' r] eqn:Hop.
    destruct (saveToMemento_spec _ _ _ Ht Hop) as (m & -> & Hthis & _).
    cbn [state issued temporaryIds]. rewrite Hthis.
    split_and!; try done; by left.
  - destruct (mementos c !! i) as [m|] eqn:Hi;
      [|split_and!; try done; by left].
    destruct (restoreFromMemento m (state c)) as [s' r] eqn:Hop.
    cbn [fst state issued temporaryIds].
    unfold restoreFromMemento in Hop. revert Hop.
    repeat (unfold bind at 1; cbv beta;
            match goal with
            | |- context [copyOf ?rd ?l ?s] =>
                let Hc := fresh "Hc" in
                destruct (copyOf rd l s) as [? ?] eqn:Hc;
                apply copyOf_spec in Hc as (? & -> & ? & _)
            end).
    run_body. intros [= <- _]. simpl.
    repeat match goal with H : this _ = this _ |- _ => rewrite H in *; clear H end.
    split_and!; try done; by left.
Qed.

Lemma perform_counted op (c : Session Model TopologyData ControlPointData) :
  sound c → counted c → counted (perform build buildTemporary op c).
Proof.
  intros Hsound (Hp & Hn & Hidx & Hiss & Htmp).
  destruct (perform_counters op c Hsound) as (Hp' & Hn' & Hid & His' & Htm').
  unfold counted. cbv zeta. split_and!; [lia|lia| | |].
  - eapply perform_indexed; [done| |done|done]. simpl. lia.
  - destruct His' as [->|(id & Hi & ->)].
    + eapply Forall_impl; [done|]. simpl. lia.
    + apply Forall_app. split; [|apply Forall_singleton; by apply Hid].
      eapply Forall_impl; [done|]. simpl. lia.
  - destruct Htm' as [->|[-> Hdec]].
    + eapply Forall_impl; [done|]. simpl. lia.
    + apply Forall_app. split; [|apply Forall_singleton; lia].
      eapply Forall_impl; [done|]. simpl. lia.
Qed.

(** ** Sessions of a new database *)

Lemma new_typed : typed (new : State).
Proof. repeat split. Qed.

Lemma new_indices : versions (new : State) = ∅ ∧ names (new : State) = ∅.
Proof. split; reflexivity. Qed.

Lemma start_new_sound : sound (start (new : State)).
Proof. split; [apply new_typed|constructor]. Qed.

Lemma start_new_counted : counted (start (new : State)).
Proof.
  unfold counted, indexed, start. cbn [state mementos issued temporaryIds].
  destruct new_indices as [-> ->].
  split_and!; try done; split; by intros ?? ?%lookup_empty_Some.
Qed.

Lemma run_counted ops (c : Session Model TopologyData ControlPointData) :
  sound c → counted c →
  sound (run build buildTemporary ops c) ∧ counted (run build buildTemporary ops c).
Proof.
  revert c. induction ops as [|op ops IH]; intros c Hs Hc; simpl; [done|].
  apply IH; [by apply perform_sound|by apply perform_counted].
Qed.

(** ** The name indices stay inverses of one another *)

Lemma inverses_add vs ns p :
  inverses vs ns → indexedWithin (λ i, i < p) vs ns →
  inverses (<[p := Some p]> vs) (<[Some p := p]> ns).
Proof.
  intros (Hsize & Hinv & Hdef & Hnone) [Hvs Hns].
  assert (vs !! p = None) as Hvp.
  { destruct (vs !! p) as [n|] eqn:Hv; [|done]. destruct (Hvs _ _ Hv). lia. }
  assert (ns !! Some p = None) as Hnp.
  { destruct (ns !! Some p) as [v|] eqn:Hn; [|done].
    destruct (Hns _ _ Hn) as [_ Hb]. specialize (Hb p eq_refl). simpl in Hb. lia. }
  split_and!.
  - by rewrite !map_size_insert_None, Hsize.
  - intros v n. rewrite !lookup_insert_Some. split.
    + intros [[<- [= <-]]|[Hne Hv]]; [by left|right].
      split; [|by apply Hinv]. intros [= <-].
      destruct (Hvs _ _ Hv) as [_ Hb]. specialize (Hb p eq_refl). simpl in Hb. lia.
    + intros [[[= <-] <-]|[Hne Hn]]; [by left|right].
      split; [|by apply Hinv]. intros <-.
      destruct (Hns _ _ Hn) as [? _]. lia.
  - intros v [[_ [=]]|[_ Hv]]%lookup_insert_Some. by eapply Hdef.
  - by rewrite lookup_insert_ne.
Qed.

Lemma inverses_remove vs ns v n :
  inverses vs ns → vs !! v = Some (Some n) →
  inverses (delete v vs) (delete (Some n) ns).
Proof.
  intros (Hsize & Hinv & Hdef & Hnone) Hv.
  assert (ns !! Some n = Some v) as Hn by (by apply Hinv).
  split_and!.
  - by rewrite !map_size_delete, Hv, Hn, Hsize.
  - intros v' n'. rewrite !lookup_delete_Some. split.
    + intros [Hne Hv']. split; [|by apply Hinv].
      intros [= <-]. apply Hinv in Hv'. congruence.
    + intros [Hne Hn']. split; [|by apply Hinv].
      intros <-. apply Hinv in Hn'. congruence.
  - intros v' [_ Hv']%lookup_delete_Some. by eapply Hdef.
  - by rewrite lookup_delete_ne.
Qed.

Lemma inverses_replace vs ns p v n :
  inverses vs ns → indexedWithin (λ i, i < p) vs ns →
  vs !! v = Some (Some n) →
  inverses (<[p := Some n]> (delete v vs)) (<[Some n := p]> ns).
Proof.
  intros Hinvs Hidx Hv.
  pose proof Hinvs as (Hsize & Hinv & Hdef & Hnone). pose proof Hidx as [Hvs Hns].
  assert (ns !! Some n = Some v) as Hn by (by apply Hinv).
  assert (v ≠ p) as Hvp by (destruct (Hvs _ _ Hv); lia).
  assert (vs !! p = None) as Hp.
  { destruct (vs !! p) as [n'|] eqn:Hv'; [|done]. destruct (Hvs _ _ Hv'). lia. }
  split_and!.
  - rewrite map_size_insert_None by (by rewrite lookup_delete_ne).
    rewrite map_size_insert_Some by done. rewrite <-Hsize.
    rewrite <-(insert_id vs v (Some n)) at 2 by done.
    rewrite <-insert_delete_eq.
    symmetry. apply map_size_insert_None, lookup_delete_eq.
  - intros v' n'. rewrite !lookup_insert_Some, lookup_delete_Some. split.
    + intros [[<- [= <-]]|(Hne & Hne' & Hv')]; [by left|right].
      split; [|by apply Hinv]. intros [= <-].
      apply Hinv in Hv'. congruence.
    + intros [[[= <-] <-]|[Hne Hn']]; [by left|right].
      assert (v' ≠ v) as Hne' by (intros ->; apply Hinv in Hn'; congruence).
      split_and!; [|done|by apply Hinv].
      intros <-. destruct (Hns _ _ Hn'). lia.
  - intros v' [[_ [=]]|[_ [_ Hv']%lookup_delete_Some]]%lookup_insert_Some.
    by eapply Hdef.
  - by rewrite lookup_insert_ne.
Qed.

Lemma perform_paired op (c : Session Model TopologyData ControlPointData) :
  sound c → counted c → plain op c → paired c →
  paired (perform build buildTemporary op c).
Proof.
  intros Hsound (_ & _ & [Hidx _] & _) Hplain [Hinv Hms].
  destruct (perform_sound op c Hsound) as [_ Hkeep].
  destruct Hsound as [Ht Hdet].
  assert (∀ s', (∀ m, m ∈ mementos c →
             mementoContents (heap s') m = mementoContents (heap (state c)) m) →
    Forall (λ m, inverses (versionEntries (mementoContents (heap s') m))
                          (nameEntries (mementoContents (heap s') m))) (mementos c)) as Hms'.
  { intros s' Hsame. rewrite Forall_forall in Hms. apply Forall_forall.
    intros m Hm. rewrite (Hsame m Hm). by apply Hms. }
  revert Hkeep Hplain.
  destruct op as [model agent name|from model|view agent|model anc into| | |i];
    unfold perform, paired, plain; cbv beta iota zeta.
  - destruct (addItem _ _ _ _ _) as [s' r] eqn:Hop.
    destruct (addItem_spec _ _ _ _ _ _ Ht Hop) as (_ & _ & Hr).
    destruct r as [view|e]; cbn [state mementos]; intros Hkeep ->.
    + destruct Hr as (Hid & -> & ->). rewrite Hid. simpl.
      split; [by apply inverses_add|by apply Hms'].
    + destruct Hr as [-> ->]. split; [done|by apply Hms'].
  - destruct (replaceItem _ _ _ _) as [s' r] eqn:Hop.
    destruct (replaceItem_spec _ _ _ _ _ Ht Hop) as (_ & _ & Hr).
    destruct r as [to|e]; cbn [state mementos]; intros Hkeep [[n|] Hv].
    + destruct Hr as (Hid & -> & ->). rewrite Hid, Hv. simpl.
      split; [by eapply inverses_replace|by apply Hms'].
    + by destruct Hinv as (_ & _ & Hdef & _), (Hdef _ Hv).
    + destruct Hr as [-> ->]. split; [done|by apply Hms'].
    + destruct Hr as [-> ->]. split; [done|by apply Hms'].
  - destruct (removeItem view agent (state c)) as [s' r] eqn:Hop.
    destruct (removeItem_spec _ _ _ _ _ Ht Hop) as (_ & _ & Hv' & Hm & _).
    cbn [fst state mementos]. intros Hkeep [[n|] Hv].
    + rewrite Hv', Hm, Hv. simpl.
      split; [by eapply inverses_remove|by apply Hms'].
    + by destruct Hinv as (_ & _ & Hdef & _), (Hdef _ Hv).
  - destruct (addTemporaryItem _ _ _ _ _) as [s' r] eqn:Hop.
    destruct (addTemporaryItem_spec _ _ _ _ _ _ Hop) as (Hh & Hl & _).
    destruct (same_indices _ _ Hh Hl) as [Hv Hm].
    destruct r as [[tempId view]|e]; cbn [state mementos];
      intros Hkeep _; rewrite Hv, Hm; (split; [done|by apply Hms']).
  - destruct (clearTemporaryObjects (state c)) as [s' r] eqn:Hop.
    destruct (clearTemporaryObjects_spec _ _ _ Hop) as (Hh & Hl & _).
    destruct (same_indices _ _ Hh Hl) as [Hv Hm].
    cbn [fst state mementos]. intros Hkeep _. rewrite Hv, Hm.
    split; [done|by apply Hms'].
  - destruct (saveToMemento (state c)) as [s' r] eqn:Hop.
    destruct (saveToMemento_spec _ _ _ Ht Hop) as (m & -> & Hthis & Hsub & Hm & Hnew').
    pose proof (contents_extend _ _ Hsub Hthis Ht) as Hc.
    cbn [state mementos]. intros Hkeep _.
    injection Hc as _ -> -> _ _ _.
    split; [done|].
    apply Forall_app. split; [by apply Hms'|].
    apply Forall_singleton. by rewrite Hm.
  - destruct (mementos c !! i) as [m|] eqn:Hi;
      [|intros _ _; split; [done|by apply Hms']].
    destruct (restoreFromMemento m (state c)) as [s' r] eqn:Hop.
    cbn [fst state mementos]. intros Hkeep _.
    rewrite Forall_forall in Hdet.
    assert (m ∈ mementos c) as Hin by (eapply list_elem_of_lookup_2, Hi).
    destruct (restoreFromMemento_spec _ _ _ _
      (λ l Hl, proj1 (elem_of_dom _ _) (proj1 (Hdet m Hin l Hl))) Hop)
      as (-> & Hsub & Ht' & Hc & _).
    injection Hc as _ -> -> _ _ _.
    split; [|by apply Hms'].
    rewrite Forall_forall in Hms. by apply Hms.
Qed.

(** Short of explicit names, the operations keep the two indices inverses
    of one another: the invariant the code's [validate] asserts holds for
    every sequence of operations applied under their preconditions in
    which [addItem] chooses the id itself. *)
Lemma plain_operations_keep_inverses ops :
  plainly build buildTemporary ops (start new) →
  paired (run build buildTemporary ops (start new)).
Proof.
  assert (∀ (c : Session Model TopologyData ControlPointData),
            sound c → counted c → paired c →
            plainly build buildTemporary ops c →
            paired (run build buildTemporary ops c)) as Hgen.
  { induction ops as [|op ops IH]; intros c Hs Hc Hp Hplain; [done|].
    destruct Hplain as [Hop Hrest]. simpl. apply IH; [| | |done].
    - by apply perform_sound.
    - by apply perform_counted.
    - by apply perform_paired. }
  intros Hplain.
  apply Hgen; [apply start_new_sound|apply start_new_counted| |done].
  unfold paired, start. cbn [state mementos].
  destruct new_indices as [-> ->]. split; [|done].
  by split_and!.
Qed.

(** ** Replacing an item *)


(** ** The ids a database gives out *)



(** ** Failing lookups *)

(** C10: [lookupItemById], [lookupTopologyItemById] and
    [lookupControlPointById] throw when the id is absent from their map,
    and return the stored record when it is present; either way the state
    they return is the state they were given. *)
Theorem lookups_fail_fast s :
  (∀ id, lookupItemById id s =
         (s, match geometry s !! id with
             | Some record => Ok record
             | None => Throw (MissingFromGeometryModel id)
             end)) ∧
  (∀ id, lookupTopologyItemById id s =
         (s, match topology s !! id with
             | Some record => Ok record
             | None => Throw (MissingFromTopologyModel id)
             end)) ∧
  (∀ id, lookupControlPointById id s =
         (s, match points s !! id with
             | Some record => Ok record
             | None => Throw (MissingFromControlPointModel id)
             end)).
Proof.
  unfold lookupItemById, lookupTopologyItemById, lookupControlPointById,
    geometry, topology, points.
  split_and!; intros id; run_body; by case_match.
Qed.

(** ** Mementos are snapshots *)

Lemma restoreFromMemento_replaces m s :
  (∀ l, l ∈ mementoLocs m → is_Some (heap s !! l)) →
  ∃ s', restoreFromMemento m s = (s', Ok tt) ∧
        contents s' = mementoContents (heap s) m ∧
        mementoContents (heap s') m = mementoContents (heap s) m.
Proof.
  intros Hlive. destruct (restoreFromMemento m s) as [s' r] eqn:Hop.
  destruct (restoreFromMemento_spec _ _ _ _ Hlive Hop) as (-> & Hsub & _ & Hc & _).
  exists s'. split_and!; [done|done|]. by apply mementoContents_extend.
Qed.

(** C7: the memento [saveToMemento] produces holds the entries of the six
    tracked maps and sets, and no later operation of the database, a
    restore included, changes what it holds; [restoreFromMemento m]
    leaves each tracked map and set of the database holding exactly the
    entries of [m], whatever they held before, and leaves [m] as it was;
    in particular restoring the memento just saved leaves the tracked
    maps with the entries they had. *)
Theorem memento_is_a_snapshot s :
  typed s →
  (∀ m, (∀ l, l ∈ mementoLocs m → is_Some (heap s !! l)) →
     ∃ s', restoreFromMemento m s = (s', Ok tt) ∧
           contents s' = mementoContents (heap s) m ∧
           mementoContents (heap s') m = mementoContents (heap s) m) ∧
  ∃ s1 m,
    saveToMemento s = (s1, Ok m) ∧
    contents s1 = contents s ∧
    mementoContents (heap s1) m = contents s ∧
    (∃ s2, restoreFromMemento m s1 = (s2, Ok tt) ∧ contents s2 = contents s) ∧
    ∀ ops,
      let c := run build buildTemporary ops
                 {| state := s1; mementos := [m]; issued := []; temporaryIds := [] |} in
      mementoContents (heap (state c)) m = contents s ∧
      ∃ s3, restoreFromMemento m (state c) = (s3, Ok tt) ∧
            contents s3 = contents s ∧
            mementoContents (heap s3) m = contents s.
Proof.
  intros Ht. split; [intros m; apply restoreFromMemento_replaces|].
  destruct (saveToMemento s) as [s1 r] eqn:Hsave.
  destruct (saveToMemento_spec _ _ _ Ht Hsave) as (m & -> & Hthis & Hsub & Hm & Hnew).
  assert (sound {| state := s1; mementos := [m]; issued := []; temporaryIds := [] |})
    as Hsound.
  { split; cbn [state mementos]; [by eapply typed_extend|].
    apply Forall_singleton. intros l Hl. destruct (Hnew l Hl) as [Hnone Hsome].
    split; [by apply elem_of_dom|]. rewrite Hthis. intros Hin.
    destruct (typed_live _ _ Ht Hin) as [? ?]. congruence. }
  assert (∀ ops,
    let c := run build buildTemporary ops
               {| state := s1; mementos := [m]; issued := []; temporaryIds := [] |} in
    mementoContents (heap (state c)) m = contents s ∧
    ∃ s3, restoreFromMemento m (state c) = (s3, Ok tt) ∧
          contents s3 = contents s ∧
          mementoContents (heap s3) m = contents s) as Hlater.
  { intros ops c.
    destruct (run_sound ops _ Hsound) as ([_ Hdet] & Hpre & Hkeep).
    cbn [state mementos] in Hpre, Hkeep. fold c in Hdet, Hpre, Hkeep.
    assert (mementoContents (heap (state c)) m = contents s) as Hsame.
    { rewrite Hkeep; [done|]. apply list_elem_of_singleton. done. }
    split; [done|].
    assert (m ∈ mementos c) as Hin.
    { destruct Hpre as [k ->]. apply elem_of_app. left.
      by apply list_elem_of_singleton. }
    rewrite Forall_forall in Hdet.
    destruct (restoreFromMemento_replaces m (state c)) as (s3 & Hr & Hc & Hm3).
    { intros l Hl. apply elem_of_dom. by apply (Hdet m Hin). }
    exists s3. by rewrite Hc, Hm3. }
  exists s1, m. split_and!; [done|by apply contents_extend|done| |done].
  destruct (Hlater []) as [_ (s3 & ? & ? & _)]. by exists s3.
Qed.

End GeometryDatabaseFacts.


Lemma memento_is_a_snapshot_witness :
  let s := state (exampleRun [AddItem tt user None]) in
  typed s ∧
  ∃ s1 m, saveToMemento s = (s1, Ok m) ∧
          mementoContents (heap s1) m = contents s ∧
          ∀ ops, mementoContents
                   (heap (state (run exampleBuild exampleBuildTemporary ops
                      {| state := s1; mementos := [m]; issued := []; temporaryIds := [] |})))
                   m = contents s.
Proof.
  assert (typed (state (exampleRun [AddItem tt user None]))) as Ht
    by (repeat split; reflexivity).
  split; [exact Ht|].
  destruct (memento_is_a_snapshot exampleBuild exampleBuildTemporary _ Ht)
    as [_ (s1 & m & Hsave & _ & Hm & _ & Hlater)].
  exists s1, m. split_and!; [exact Hsave|exact Hm|].
  intros ops. apply Hlater.
Defined.

(** C6, at a failing input: after [addItem(m)], [replaceItem] of the item
    it returned and [addItem(m, 'user', 1)], each look-up having found its
    item, [version2name] holds two entries and [name2version] one, and the
    name 1 that [version2name] gives for version 2 is mapped back to
    version 1: the two maps are not inverses of one another. *)
Theorem named_addItem_breaks_inverses :
  let before := exampleRun [AddItem tt user None] in
  let after := exampleRun [AddItem tt user None; ReplaceItem (exampleView 1) tt;
                           AddItem tt user (Some 1)] in
  versions (state before) !! 1 = Some (Some 1) ∧
  size (versions (state after)) = 2%nat ∧
  size (names (state after)) = 1%nat ∧
  versions (state after) !! 2 = Some (Some 1) ∧
  names (state after) !! Some 1 = Some 1 ∧
  ¬ inverses (versions (state after)) (names (state after)).
Proof.
  intros before after.
  assert (size (versions (state after)) = 2%nat) as Hv by reflexivity.
  assert (size (names (state after)) = 1%nat) as Hn by reflexivity.
  split_and!; try reflexivity.
  intros [Hsize _]. rewrite Hv, Hn in Hsize. discriminate.
Qed.



(** * More facts about the geometry database *)

Section GeometryDatabaseMore.

Context {Model TopologyData ControlPointData : Type}.

Variable build :
  Model → SimpleName → gmap string TopologyData → gmap string ControlPointData →
  option (Item * gmap string TopologyData * gmap string ControlPointData).
Variable buildTemporary : Model → SimpleName → option Item.

#[local] Abbreviation object := (object Model TopologyData ControlPointData).
#[local] Abbreviation Heap := (gmap loc object).
#[local] Abbreviation State := (State Model TopologyData ControlPointData).
#[local] Abbreviation Session := (Session Model TopologyData ControlPointData).

Implicit Types (h : Heap) (s : State) (l : loc) (f : object → object) (c : Session).

(** ** Reading every kind of object through an in-place mutation *)

Lemma setAt_alter_frame f l l' h :
  spares KSet f → setAt (alter f l h) l' = setAt h l'.
Proof.
  intros Hf. unfold setAt.
  destruct (decide (l = l')) as [->|Hne]; [|by rewrite lookup_alter_ne].
  rewrite lookup_alter_eq. destruct (h !! l') as [o|]; [simpl|done].
  destruct (Hf o) as [Hk Hid].
  destruct o; try (by rewrite Hid); destruct (f _); done.
Qed.

Lemma topologyAt_alter_frame f l l' h :
  spares KTopology f → topologyAt (alter f l h) l' = topologyAt h l'.
Proof.
  intros Hf. unfold topologyAt.
  destruct (decide (l = l')) as [->|Hne]; [|by rewrite lookup_alter_ne].
  rewrite lookup_alter_eq. destruct (h !! l') as [o|]; [simpl|done].
  destruct (Hf o) as [Hk Hid].
  destruct o; try (by rewrite Hid); destruct (f _); done.
Qed.

Lemma controlPointsAt_alter_frame f l l' h :
  spares KControlPoints f → controlPointsAt (alter f l h) l' = controlPointsAt h l'.
Proof.
  intros Hf. unfold controlPointsAt.
  destruct (decide (l = l')) as [->|Hne]; [|by rewrite lookup_alter_ne].
  rewrite lookup_alter_eq. destruct (h !! l') as [o|]; [simpl|done].
  destruct (Hf o) as [Hk Hid].
  destruct o; try (by rewrite Hid); destruct (f _); done.
Qed.

Lemma setAt_alter_hit g l h :
  holds h l KSet → setAt (alter (onSet g) l h) l = g (setAt h l).
Proof.
  unfold holds, setAt. rewrite lookup_alter_eq.
  destruct (h !! l) as [[]|]; naive_solver.
Qed.

Lemma topologyAt_alter_hit g l h :
  holds h l KTopology → topologyAt (alter (onTopology g) l h) l = g (topologyAt h l).
Proof.
  unfold holds, topologyAt. rewrite lookup_alter_eq.
  destruct (h !! l) as [[]|]; naive_solver.
Qed.

Lemma controlPointsAt_alter_hit g l h :
  holds h l KControlPoints →
  controlPointsAt (alter (onControlPoints g) l h) l = g (controlPointsAt h l).
Proof.
  unfold holds, controlPointsAt. rewrite lookup_alter_eq.
  destruct (h !! l) as [[]|]; naive_solver.
Qed.

Ltac spares_tac := intros []; by split.

Ltac holds_tac :=
  repeat (apply holds_alter; [by intros []|]);
  first [assumption | match goal with H : typed _ |- _ => apply H end].

Ltac run_body :=
  unfold bind, gets, modify, mutate, ret, throw, withHeap; simpl.

Ltac read_all :=
  repeat first
    [ rewrite geometryAt_alter_frame by spares_tac
    | rewrite geometryAt_alter_hit by holds_tac
    | rewrite versionsAt_alter_frame by spares_tac
    | rewrite namesAt_alter_frame by spares_tac
    | rewrite versionsAt_alter_hit by holds_tac
    | rewrite namesAt_alter_hit by holds_tac
    | rewrite setAt_alter_frame by spares_tac
    | rewrite setAt_alter_hit by holds_tac
    | rewrite topologyAt_alter_frame by spares_tac
    | rewrite topologyAt_alter_hit by holds_tac
    | rewrite controlPointsAt_alter_frame by spares_tac
    | rewrite controlPointsAt_alter_hit by holds_tac ].

Ltac read_maps :=
  unfold geometry, versions, names, topology, points, automaticSet;
  simpl; read_all.

(** Deleting the keys of a list, as the loops of [removeTopologyItems]
    and [removeControlPoints] do. *)
Lemma lookup_foldl_delete {A} (keys : list string) (m : gmap string A) k :
  foldl (λ m key, delete key m) m keys !! k =
  if decide (k ∈ keys) then None else m !! k.
Proof.
  revert m. induction keys as [|key keys IH]; intros m; simpl.
  { done. }
  rewrite IH.
  destruct (decide (k ∈ keys)) as [Hin|Hnin],
           (decide (k ∈ key :: keys)) as [Hin'|Hnin']; try done.
  - destruct Hnin'. by apply list_elem_of_further.
  - apply elem_of_cons in Hin' as [->|?]; [|done]. by rewrite lookup_delete_eq.
  - rewrite lookup_delete_ne; [done|]. intros ->. destruct Hnin'.
    apply list_elem_of_here.
Qed.

(** ** What each method does to all the maps *)

#[local] Abbreviation deleting keys m := (foldl (λ acc key, delete key acc) m keys).

Lemma insertItem_full model agent name s s' r :
  typed s →
  insertItem build model agent name s = (s', r) →
  let n := insertedName name (this s) in
  locsOf (this s') = locsOf (this s) ∧
  match build model n (topology s) (points s) with
  | Some (view, topo, pts) =>
      r = Ok (withSimpleName n view) ∧
      geometry s' = <[n := (withSimpleName n view, model)]> (geometry s) ∧
      topology s' = topo ∧ points s' = pts ∧
      automaticSet s' = match agent with
                        | automatic => {[n]} ∪ automaticSet s
                        | user => automaticSet s
                        end
  | None => r = Throw MeshesFailed ∧ heap s' = heap s
  end.
Proof.
  intros Ht. unfold insertItem, topology, points. run_body.
  destruct (build _ _ _ _) as [[[view topo] pts]|]; [destruct agent|];
    run_body; intros [= <- <-]; (split; [done|]); split_and!; try done;
    by read_maps.
Qed.

Lemma _removeItem_full view agent s s' r :
  typed s →
  _removeItem view agent s = (s', r) →
  this s' = this s ∧
  geometry s' = delete (simpleName view) (geometry s) ∧
  topology s' =
    (if isSolid view
     then foldl (λ m key, delete key m)
            (foldl (λ m key, delete key m) (topology s) (allFaces view)) (allFaces view)
     else topology s) ∧
  points s' = foldl (λ m key, delete key m) (points s) (controlPoints view) ∧
  automaticSet s' = automaticSet s ∖ {[simpleName view]}.
Proof.
  intros Ht. unfold _removeItem, removeTopologyItems, removeControlPoints.
  destruct (isSolid view); run_body; intros [= <- <-];
    split_and!; try done; by read_maps.
Qed.

Lemma addItem_full model agent name s s' r :
  typed s →
  addItem build model agent name s = (s', r) →
  let n := insertedName name (this s) in
  match build model n (topology s) (points s) with
  | Some (view, topo, pts) =>
      r = Ok (withSimpleName n view) ∧
      contents s' =
        {| geometryEntries := <[n := (withSimpleName n view, model)]> (geometry s);
           versionEntries := <[n := Some n]> (versions s);
           nameEntries := <[Some n := n]> (names s);
           topologyEntries := topo;
           controlPointEntries := pts;
           automaticEntries := match agent with
                               | automatic => {[n]} ∪ automaticSet s
                               | user => automaticSet s
                               end |}
  | None => r = Throw MeshesFailed ∧ heap s' = heap s ∧ contents s' = contents s
  end.
Proof.
  intros Ht. unfold addItem, insertItem, contents, topology, points. run_body.
  destruct (build _ _ _ _) as [[[view topo] pts]|]; [destruct agent|];
    run_body; intros [= <- <-]; (split; [done|]); try done;
    f_equal; by read_maps.
Qed.

Lemma replaceItem_full from model s s' r :
  typed s →
  replaceItem build from model s = (s', r) →
  let p := positiveCounter (this s) in
  let name := mjoin (versions s !! simpleName from) in
  match build model p (topology s) (points s) with
  | Some (view, topo, pts) =>
      r = Ok (withSimpleName p view) ∧
      contents s' =
        {| geometryEntries :=
             delete (simpleName from) (<[p := (withSimpleName p view, model)]> (geometry s));
           versionEntries := <[p := name]> (delete (simpleName from) (versions s));
           nameEntries := <[name := p]> (names s);
           topologyEntries :=
             if isSolid from then deleting (allFaces from) (deleting (allFaces from) topo)
             else topo;
           controlPointEntries := deleting (controlPoints from) pts;
           automaticEntries := automaticSet s ∖ {[simpleName from]} |}
  | None => r = Throw MeshesFailed ∧ heap s' = heap s ∧ contents s' = contents s
  end.
Proof.
  intros Ht.
  unfold replaceItem, insertItem, _removeItem, removeTopologyItems,
    removeControlPoints, version2name_get, contents, topology, points.
  run_body. destruct (build _ _ _ _) as [[[view topo] pts]|];
    [|by intros [= <- <-]].
  destruct (isSolid from); run_body; intros [= <- <-]; (split; [done|]);
    f_equal; by read_maps.
Qed.

Lemma removeItem_full view agent s s' r :
  typed s →
  removeItem view agent s = (s', r) →
  r = Ok tt ∧
  contents s' =
    {| geometryEntries := delete (simpleName view) (geometry s);
       versionEntries := delete (simpleName view) (versions s);
       nameEntries := delete (mjoin (versions s !! simpleName view)) (names s);
       topologyEntries :=
         if isSolid view
         then deleting (allFaces view) (deleting (allFaces view) (topology s))
         else topology s;
       controlPointEntries := deleting (controlPoints view) (points s);
       automaticEntries := automaticSet s ∖ {[simpleName view]} |}.
Proof.
  intros Ht.
  unfold removeItem, _removeItem, removeTopologyItems, removeControlPoints,
    version2name_get, contents.
  destruct (isSolid view); run_body; intros [= <- <-]; (split; [done|]);
    f_equal; by read_maps.
Qed.

Lemma same_contents s s' :
  heap s' = heap s → locsOf (this s') = locsOf (this s) → contents s' = contents s.
Proof.
  unfold contents, geometry, versions, names, topology, points, automaticSet, locsOf.
  by intros -> [= -> -> -> -> -> ->].
Qed.

(** ** Invariants of the stored entries *)

(** A property of the entries that survives a growing counter holds of a
    session, and of every memento it holds, after an operation, once it
    is shown of the live entries after an insertion or a removal. *)
Lemma perform_within (J : Z → Contents Model TopologyData ControlPointData → Prop) op c :
  sound c →
  (∀ p p' k, p ≤ p' → J p k → J p' k) →
  let c' := perform build buildTemporary op c in
  match op with
  | AddItem _ _ _ | ReplaceItem _ _ | RemoveItem _ _ =>
      J (positiveCounter (this (state c'))) (contents (state c'))
  | _ => True
  end →
  J (positiveCounter (this (state c))) (contents (state c)) ∧
  Forall (λ m, J (positiveCounter (this (state c))) (mementoContents (heap (state c)) m))
         (mementos c) →
  J (positiveCounter (this (state c'))) (contents (state c')) ∧
  Forall (λ m, J (positiveCounter (this (state c'))) (mementoContents (heap (state c')) m))
         (mementos c').
Proof.
  intros Hsound Hmono c' Hlive [Hnow Hms]. subst c'.
  destruct (perform_sound build buildTemporary op c Hsound) as [_ Hkeep].
  destruct (perform_counters build buildTemporary op c Hsound) as (Hp & _).
  destruct Hsound as [Ht Hdet].
  assert (Forall (λ m, J (positiveCounter (this (state (perform build buildTemporary op c))))
                         (mementoContents (heap (state (perform build buildTemporary op c))) m))
                 (mementos c)) as Hold.
  { rewrite Forall_forall in Hms. apply Forall_forall. intros m Hm.
    rewrite (Hkeep m Hm). by eapply Hmono, Hms. }
  clear Hkeep. revert Hp Hlive Hold.
  destruct op as [model agent name|from model|view agent|model anc into| | |i];
    unfold perform; cbv beta iota.
  - destruct (addItem _ _ _ _ _) as [s' []]; cbn [state mementos]; by intros.
  - destruct (replaceItem _ _ _ _) as [s' []]; cbn [state mementos]; by intros.
  - by intros.
  - destruct (addTemporaryItem _ _ _ _ _) as [s' r] eqn:Hop.
    destruct (addTemporaryItem_spec _ _ _ _ _ _ _ Hop) as (Hh & Hl & _).
    pose proof (same_contents _ _ Hh Hl) as Hc.
    destruct r as [[tempId view]|e]; cbn [state mementos]; intros Hp _ Hold;
      rewrite Hc; (split; [by eapply Hmono|done]).
  - destruct (clearTemporaryObjects (state c)) as [s' r] eqn:Hop.
    destruct (clearTemporaryObjects_spec _ _ _ Hop) as (Hh & Hl & _).
    pose proof (same_contents _ _ Hh Hl) as Hc.
    cbn [fst state mementos]. intros Hp _ Hold. rewrite Hc.
    split; [by eapply Hmono|done].
  - destruct (saveToMemento (state c)) as [s' r] eqn:Hop.
    destruct (saveToMemento_spec _ _ _ Ht Hop) as (m & -> & Hthis & Hsub & Hm & _).
    pose proof (contents_extend _ _ Hsub Hthis Ht) as Hc.
    cbn [state mementos]. intros Hp _ Hold. rewrite Hc.
    split; [by eapply Hmono|].
    apply Forall_app. split; [done|].
    apply Forall_singleton. rewrite Hm. by eapply Hmono.
  - destruct (mementos c !! i) as [m|] eqn:Hi; [|by intros].
    destruct (restoreFromMemento m (state c)) as [s' r] eqn:Hop.
    cbn [fst state mementos]. intros Hp _ Hold.
    rewrite Forall_forall in Hdet.
    assert (m ∈ mementos c) as Hin by (eapply list_elem_of_lookup_2, Hi).
    destruct (restoreFromMemento_spec _ _ _ _
      (λ l Hl, proj1 (elem_of_dom _ _) (proj1 (Hdet m Hin l Hl))) Hop)
      as (-> & Hsub & Ht' & Hc & _).
    rewrite Hc. split; [|done].
    rewrite Forall_forall in Hms. by eapply Hmono, Hms.
Qed.

Lemma coherent_mono p p' (k : Contents Model TopologyData ControlPointData) :
  p ≤ p' → coherent p k → coherent p' k.
Proof.
  intros Hle [Hids Haut]. split; [|done].
  intros id view model Hin. destruct (Hids _ _ _ Hin). split; [done|lia].
Qed.

Lemma perform_kept op c :
  sound c → kept c → kept (perform build buildTemporary op c).
Proof.
  intros Hsound Hkept.
  apply (perform_within coherent); [done|apply coherent_mono| |done].
  destruct Hkept as [[Hids Haut] _]. destruct Hsound as [Ht _].
  destruct op as [model agent name|from model|view agent|model anc into| | |i];
    try done; unfold perform; cbv beta iota.
  - destruct (addItem _ _ _ _ _) as [s' r] eqn:Hop.
    destruct (addItem_spec build buildTemporary _ _ _ _ _ _ Ht Hop) as (Hp' & _).
    pose proof (addItem_full _ _ _ _ _ _ Ht Hop) as Hfull. cbv zeta in Hfull.
    destruct (counterAfterInsert_bounds name (this (state c))) as [Hle Hlt].
    assert (coherent (positiveCounter (this s')) (contents s')) as Hcoh;
      [|by destruct r].
    rewrite Hp'. destruct (build _ _ _ _) as [[[v topo] pts]|].
    + destruct Hfull as [_ ->]. split; cbn [geometryEntries automaticEntries].
      * intros id view model' [[<- [= <- <-]]|[_ Hin]]%lookup_insert_Some; [done|].
        destruct (Hids _ _ _ Hin). split; [done|lia].
      * rewrite dom_insert. cbn [contents automaticEntries geometryEntries] in Haut.
        destruct agent; set_solver.
    + destruct Hfull as (_ & _ & ->). by eapply coherent_mono.
  - destruct (replaceItem _ _ _ _) as [s' r] eqn:Hop.
    destruct (replaceItem_spec build buildTemporary _ _ _ _ _ Ht Hop) as (Hp' & _).
    pose proof (replaceItem_full _ _ _ _ _ Ht Hop) as Hfull. cbv zeta in Hfull.
    assert (coherent (positiveCounter (this s')) (contents s')) as Hcoh;
      [|by destruct r].
    rewrite Hp'. destruct (build _ _ _ _) as [[[v topo] pts]|].
    + destruct Hfull as [_ ->]. split; cbn [geometryEntries automaticEntries].
      * intros id view model' [_ [[<- [= <- <-]]|[_ Hin]]%lookup_insert_Some]%lookup_delete_Some.
        { split; [done|lia]. }
        destruct (Hids _ _ _ Hin). split; [done|lia].
      * rewrite dom_delete, dom_insert.
        cbn [contents automaticEntries geometryEntries] in Haut. set_solver.
    + destruct Hfull as (_ & _ & ->). eapply coherent_mono; [|done]. lia.
  - destruct (removeItem view agent (state c)) as [s' r] eqn:Hop.
    destruct (removeItem_spec _ _ _ _ _ Ht Hop) as (Hp' & _).
    destruct (removeItem_full _ _ _ _ _ Ht Hop) as [_ Hfull].
    cbn [fst state]. rewrite Hp', Hfull.
    split; cbn [geometryEntries automaticEntries].
    + intros id view' model' [_ Hin]%lookup_delete_Some. by eapply Hids.
    + rewrite dom_delete.
      cbn [contents automaticEntries geometryEntries] in Haut. set_solver.
Qed.

Lemma run_kept ops c :
  sound c → kept c → kept (run build buildTemporary ops c).
Proof.
  revert c. induction ops as [|op ops IH]; intros c Hs Hk; simpl; [done|].
  apply IH; [by apply perform_sound|by apply perform_kept].
Qed.

Lemma start_new_kept : kept (start (new : State)).
Proof.
  split; [|constructor]. split; cbn [start state contents geometryEntries automaticEntries].
  - intros id view model. change (geometry (new : State)) with (∅ : gmap SimpleName (Item * Model)).
    by intros ?%lookup_empty_Some.
  - change (automaticSet (new : State)) with (∅ : gset SimpleName). set_solver.
Qed.

Lemma perform_tracked op c :
  sound c → counted c → guarded op c → tracked c →
  tracked (perform build buildTemporary op c).
Proof.
  intros Hsound Hcount Hguard Htr.
  apply (perform_within (λ _ k, dom (versionEntries k) = dom (geometryEntries k)));
    [done|done| |done].
  destruct Htr as [Hdom _]. destruct Hsound as [Ht _].
  destruct op as [model agent name|from model|view agent|model anc into| | |i];
    try done; unfold perform; cbv beta iota.
  - destruct (addItem _ _ _ _ _) as [s' r] eqn:Hop.
    pose proof (addItem_full _ _ _ _ _ _ Ht Hop) as Hfull. cbv zeta in Hfull.
    assert (dom (versionEntries (contents s')) = dom (geometryEntries (contents s')))
      as Hcoh; [|by destruct r].
    destruct (build _ _ _ _) as [[[v topo] pts]|].
    + destruct Hfull as [_ ->]. cbn [versionEntries geometryEntries].
      by rewrite !dom_insert_L, Hdom.
    + by destruct Hfull as (_ & _ & ->).
  - destruct (replaceItem _ _ _ _) as [s' r] eqn:Hop.
    pose proof (replaceItem_full _ _ _ _ _ Ht Hop) as Hfull. cbv zeta in Hfull.
    assert (dom (versionEntries (contents s')) = dom (geometryEntries (contents s')))
      as Hcoh; [|by destruct r].
    destruct (build _ _ _ _) as [[[v topo] pts]|].
    + destruct Hfull as [_ ->]. cbn [versionEntries geometryEntries].
      destruct Hguard as [n Hn].
      destruct Hcount as (_ & _ & [[Hvs _] _] & _).
      destruct (Hvs _ _ Hn) as [Hlt _].
      rewrite dom_delete_L, !dom_insert_L, dom_delete_L, Hdom.
      apply set_eq. intros i. set_unfold. split; [|naive_solver].
      intros [->|[? ?]]; [|naive_solver]. split; [by left|lia].
    + by destruct Hfull as (_ & _ & ->).
  - destruct (removeItem view agent (state c)) as [s' r] eqn:Hop.
    destruct (removeItem_full _ _ _ _ _ Ht Hop) as [_ Hfull].
    cbn [fst state]. rewrite Hfull. cbn [versionEntries geometryEntries].
    by rewrite !dom_delete_L, Hdom.
Qed.

Lemma run_tracked ops c :
  sound c → counted c → tracked c → guardedly build buildTemporary ops c →
  tracked (run build buildTemporary ops c).
Proof.
  revert c. induction ops as [|op ops IH]; intros c Hs Hc Ht Hg; simpl; [done|].
  destruct Hg as [Hg Hgs].
  apply IH; [by apply perform_sound|by apply perform_counted|by apply perform_tracked|done].
Qed.

Lemma start_new_tracked : tracked (start (new : State)).
Proof. split; [|constructor]. reflexivity. Qed.

(** ** The lookups, read off the maps *)

#[local] Abbreviation reached ops := (state (run build buildTemporary ops (start new))).

Lemma lookupItemById_reads id s :
  lookupItemById id s =
    (s, match geometry s !! id with
        | Some result => Ok result
        | None => Throw (MissingFromGeometryModel id)
        end).
Proof. unfold lookupItemById, geometry. run_body. by destruct (_ !! id). Qed.

Lemma lookup_reads view s :
  lookup view s =
    (s, match geometry s !! simpleName view with
        | Some result => Ok (snd result)
        | None => Throw (MissingFromGeometryModel (simpleName view))
        end).
Proof.
  unfold lookup, bind. rewrite lookupItemById_reads. by destruct (_ !! _).
Qed.

Lemma lookupByName_reads name s :
  lookupByName name s =
    (s, match names s !! Some name with
        | Some id =>
            match geometry s !! id with
            | Some result => inr result
            | None => inl (Some id)
            end
        | None => inl None
        end).
Proof.
  unfold lookupByName, names. destruct (_ !! Some name) as [id|]; [|done].
  rewrite lookupItemById_reads. by destruct (_ !! id).
Qed.

Lemma lookupTopologyItemById_reads id s :
  lookupTopologyItemById id s =
    (s, match topology s !! id with
        | Some result => Ok result
        | None => Throw (MissingFromTopologyModel id)
        end).
Proof. unfold lookupTopologyItemById, topology. run_body. by destruct (_ !! id). Qed.

Lemma lookupControlPointById_reads id s :
  lookupControlPointById id s =
    (s, match points s !! id with
        | Some result => Ok result
        | None => Throw (MissingFromControlPointModel id)
        end).
Proof. unfold lookupControlPointById, points. run_body. by destruct (_ !! id). Qed.

Lemma elem_of_find klass includeAutomatics view model s :
  (view, model) ∈ find klass includeAutomatics s ↔
  ∃ id, geometry s !! id = Some (view, model) ∧
        (includeAutomatics = false → id ∉ automaticSet s) ∧
        (∀ k, klass = Some k → k view = true).
Proof.
  unfold find, geometry, automaticSet. rewrite list_elem_of_omap. split.
  - intros ([id [view' model']] & Hin%elem_of_map_to_list & Hsome).
    exists id. destruct includeAutomatics; simpl in Hsome.
    + destruct klass as [k|]; [destruct (k view') eqn:Hk|]; simplify_eq.
      * split_and!; [done|done|]. by intros ? [= <-].
      * by split_and!.
    + case_bool_decide as Hauto; [done|].
      destruct klass as [k|]; [destruct (k view') eqn:Hk|]; simplify_eq.
      * split_and!; [done|done|]. by intros ? [= <-].
      * by split_and!.
  - intros (id & Hin & Hauto & Hk). exists (id, (view, model)).
    split; [by apply elem_of_map_to_list|].
    destruct includeAutomatics; simpl.
    + destruct klass as [k|]; [|done]. by rewrite (Hk k eq_refl).
    + rewrite bool_decide_eq_false_2 by auto.
      destruct klass as [k|]; [|done]. by rewrite (Hk k eq_refl).
Qed.

Lemma reached_sound ops :
  typed (reached ops) ∧ counted (run build buildTemporary ops (start new)) ∧
  kept (run build buildTemporary ops (start new)).
Proof.
  destruct (run_counted build buildTemporary ops _ start_new_sound start_new_counted)
    as [[Ht _] Hc].
  split_and!; [done|done|].
  apply run_kept; [apply start_new_sound|apply start_new_kept].
Qed.

(** ** Finding and looking up *)


(** X2: after [addItem] has returned a view, with or without an explicit
    name, the item is found under the id of the view by [lookupItemById]
    and [lookup], [lookupName] gives that id as its own name, and
    [lookupByName] of it returns the new item. *)
Theorem added_item_can_be_looked_up model agent name s s' view :
  typed s →
  addItem build model agent name s = (s', Ok view) →
  simpleName view = insertedName name (this s) ∧
  lookupItemById (simpleName view) s' = (s', Ok (view, model)) ∧
  lookup view s' = (s', Ok model) ∧
  lookupName (simpleName view) s' = (s', Ok (Some (Some (simpleName view)))) ∧
  lookupByName (simpleName view) s' = (s', inr (view, model)).
Proof.
  intros Ht Hop. pose proof (addItem_full _ _ _ _ _ _ Ht Hop) as Hfull.
  cbv zeta in Hfull. destruct (build _ _ _ _) as [[[v topo] pts]|]; [|by destruct Hfull].
  destruct Hfull as [[= ->] Hc]. unfold contents in Hc.
  injection Hc as Hg Hv Hn _ _ _.
  rewrite lookupItemById_reads, lookup_reads, lookupByName_reads.
  unfold lookupName, gets. fold (versions s'). cbn [simpleName withSimpleName].
  rewrite Hg, Hv, Hn, !lookup_insert_eq. done.
Qed.

(** X3: [removeItem] never throws, and afterwards the id of the view is
    unknown: [lookupItemById] and [lookup] throw `missing from geometry
    model`, [lookupName] returns [undefined], and [lookupByName] of the
    name the view had throws for the id [undefined]. *)
Theorem removed_item_is_gone view agent s s' r :
  typed s →
  removeItem view agent s = (s', r) →
  r = Ok tt ∧
  lookupItemById (simpleName view) s' =
    (s', Throw (MissingFromGeometryModel (simpleName view))) ∧
  lookup view s' = (s', Throw (MissingFromGeometryModel (simpleName view))) ∧
  lookupName (simpleName view) s' = (s', Ok None) ∧
  ∀ n, versions s !! simpleName view = Some (Some n) →
       lookupByName n s' = (s', inl None).
Proof.
  intros Ht Hop. destruct (removeItem_full _ _ _ _ _ Ht Hop) as [-> Hc].
  unfold contents in Hc. injection Hc as Hg Hv Hn _ _ _.
  rewrite lookupItemById_reads, lookup_reads.
  unfold lookupName, gets. fold (versions s').
  rewrite Hg, Hv, !lookup_delete_eq. split_and!; try done.
  intros n Hname. rewrite lookupByName_reads, Hn, Hname. simpl.
  by rewrite lookup_delete_eq.
Qed.

(** X4: [removeItem] deletes from [topologyModel] exactly the entries
    named after the faces of a removed solid, and from
    [controlPointModel] exactly those named after the control points of
    the view; every other entry, whatever it belongs to, is still looked
    up as before.  The second loop of [removeTopologyItems] walks the
    faces again, so the topology of a view that is not a solid, and any
    entry that is not a face of the solid, stays. *)
Theorem removeItem_deletes_faces_and_points view agent s s' r :
  typed s →
  removeItem view agent s = (s', r) →
  (∀ id, lookupTopologyItemById id s' =
         (s', if isSolid view && bool_decide (id ∈ allFaces view)
              then Throw (MissingFromTopologyModel id)
              else snd (lookupTopologyItemById id s))) ∧
  (∀ id, hasTopologyItem id s' =
         (s', if isSolid view && bool_decide (id ∈ allFaces view)
              then Ok false
              else snd (hasTopologyItem id s))) ∧
  (∀ id, lookupControlPointById id s' =
         (s', if bool_decide (id ∈ controlPoints view)
              then Throw (MissingFromControlPointModel id)
              else snd (lookupControlPointById id s))).
Proof.
  intros Ht Hop. destruct (removeItem_full _ _ _ _ _ Ht Hop) as [_ Hc].
  unfold contents in Hc. injection Hc as _ _ _ Htopo Hpts _.
  assert (∀ id, topology s' !! id =
                if isSolid view && bool_decide (id ∈ allFaces view)
                then None else topology s !! id) as Hread.
  { intros id. rewrite Htopo. destruct (isSolid view); [|done]. simpl.
    rewrite !lookup_foldl_delete.
    destruct (decide (id ∈ allFaces view)) as [Hin|Hout].
    - by rewrite bool_decide_eq_true_2.
    - by rewrite bool_decide_eq_false_2. }
  split_and!; intros id.
  - rewrite !lookupTopologyItemById_reads, Hread.
    by destruct (isSolid view && bool_decide (id ∈ allFaces view)).
  - unfold hasTopologyItem, gets. fold (topology s') (topology s).
    rewrite Hread. cbn [snd].
    by destruct (isSolid view && bool_decide (id ∈ allFaces view)).
  - rewrite !lookupControlPointById_reads, Hpts, lookup_foldl_delete.
    destruct (decide (id ∈ controlPoints view)) as [Hin|Hout].
    + by rewrite bool_decide_eq_true_2.
    + by rewrite bool_decide_eq_false_2.
Qed.

Lemma kept_after op ops :
  let c := run build buildTemporary ops (start new) in
  typed (state c) ∧
  coherent (positiveCounter (this (state c))) (contents (state c)) ∧
  coherent (positiveCounter (this (state (perform build buildTemporary op c))))
           (contents (state (perform build buildTemporary op c))).
Proof.
  intros c.
  destruct (run_sound build buildTemporary ops _ start_new_sound) as [Hsound _].
  pose proof (run_kept ops _ start_new_sound start_new_kept) as Hkept.
  destruct (perform_kept op _ Hsound Hkept) as [Hafter _].
  destruct Hsound as [Ht _]. by destruct Hkept as [Hnow _].
Qed.




(** X8: in a database reached from a new one, a view handed to
    [removeItem] is in no result of [find] afterwards, with any class
    and with or without the automatic items. *)
Theorem removed_item_is_not_found ops view agent s' r klass includeAutomatics model :
  removeItem view agent (reached ops) = (s', r) →
  (view, model) ∉ find klass includeAutomatics s'.
Proof.
  intros Hop (id & Hin & _)%elem_of_find.
  destruct (kept_after (RemoveItem view agent) ops) as (Ht & _ & Hafter).
  unfold perform in Hafter. rewrite Hop in Hafter. cbn [fst state] in Hafter.
  destruct Hafter as [Hids' _]. cbn [contents geometryEntries] in Hids'.
  destruct (Hids' _ _ _ Hin) as [<- _].
  destruct (removeItem_full _ _ _ _ _ Ht Hop) as [_ Hc].
  unfold contents in Hc. injection Hc as Hg _ _ _ _ _.
  by rewrite Hg, lookup_delete_eq in Hin.
Qed.

(** ** When the builder fails *)



(** ** Ids and names of the stored items *)



Lemma plainly_guardedly ops c :
  plainly build buildTemporary ops c → guardedly build buildTemporary ops c.
Proof.
  revert c. induction ops as [|op ops IH]; intros c; [done|].
  intros [Hop Hrest]. split; [by destruct op|by apply IH].
Qed.

(** X13: as long as [addItem] is handed no explicit name and
    [replaceItem] and [removeItem] are handed views the database knows,
    every stored item has a name: [lookupName] of its id returns one, and
    [lookupByName] of that name returns the item. *)
Theorem stored_items_are_found_by_name ops view model :
  plainly build buildTemporary ops (start new) →
  (view, model) ∈ findAll true (reached ops) →
  ∃ n, lookupName (simpleName view) (reached ops) = (reached ops, Ok (Some (Some n))) ∧
       lookupByName n (reached ops) = (reached ops, inr (view, model)).
Proof.
  intros Hplain (id & Hin & _)%elem_of_find.
  destruct (reached_sound ops) as (_ & _ & [[Hids _] _]).
  destruct (Hids _ _ _ Hin) as [<- _].
  destruct (run_tracked ops _ start_new_sound start_new_counted start_new_tracked
              (plainly_guardedly _ _ Hplain)) as [Hdom _].
  destruct (plain_operations_keep_inverses build buildTemporary ops Hplain)
    as [(_ & Hinv & Hdef & _) _].
  assert (simpleName view ∈ dom (versions (reached ops))) as [x Hx]%elem_of_dom.
  { rewrite Hdom. apply elem_of_dom. eauto. }
  destruct x as [n|]; [|by destruct (Hdef (simpleName view))].
  exists n. rewrite lookupByName_reads.
  unfold lookupName, gets. fold (versions (reached ops)).
  rewrite Hx, (proj1 (Hinv _ _) Hx), Hin. done.
Qed.

(** X14: as long as [addItem] is handed no explicit name and
    [replaceItem] and [removeItem] are handed views the database knows,
    the assertion of [validate] holds: [name2version] and [version2name]
    have the same size. *)
Theorem validate_passes ops :
  plainly build buildTemporary ops (start new) →
  validate (reached ops) = true.
Proof.
  intros Hplain.
  destruct (plain_operations_keep_inverses build buildTemporary ops Hplain)
    as [(Hsize & _) _].
  apply bool_decide_eq_true_2. symmetry. exact Hsize.
Qed.

(** ** Temporary objects *)

(** X15: [addTemporaryItem], and so [addPhantom] and
    [replaceWithTemporaryItem], store nothing in the maps of the database
    and take no id of a real item: the maps and sets, [positiveCounter]
    and every result of [find] are as before, whether the builder
    succeeds or not. *)
Theorem temporary_items_are_not_stored model ancestor into s s' r :
  addTemporaryItem buildTemporary model ancestor into s = (s', r) →
  contents s' = contents s ∧
  positiveCounter (this s') = positiveCounter (this s) ∧
  ∀ klass includeAutomatics, find klass includeAutomatics s' = find klass includeAutomatics s.
Proof.
  intros Hop.
  destruct (addTemporaryItem_spec _ _ _ _ _ _ _ Hop) as (Hh & Hl & Hp & _).
  split_and!; [by apply same_contents|done|].
  intros klass includeAutomatics. unfold find. rewrite Hh.
  unfold locsOf in Hl. by injection Hl as -> _ _ -> _ _.
Qed.

(** ** Duplicates *)

Section Duplicates.

Variable duplicateOf : Model → Model.
Variable curveOf : TopologyData → Model.


(** X17: [duplicate] of a view the database does not know throws the
    error of the lookup, `missing from geometry model` for an item and
    `missing from topology model` for an edge, before anything is added:
    the state, its counters included, is as before. *)
Theorem duplicate_of_unknown_throws target s :
  match target with
  | inl item => geometry s !! simpleName item = None
  | inr edge => topology s !! edge = None
  end →
  duplicate build duplicateOf curveOf target s =
    (s, Throw match target with
              | inl item => MissingFromGeometryModel (simpleName item)
              | inr edge => MissingFromTopologyModel edge
              end).
Proof.
  destruct target as [item|edge]; intros Hnone; unfold duplicate, bind.
  - by rewrite lookup_reads, Hnone.
  - by rewrite lookupTopologyItemById_reads, Hnone.
Qed.

End Duplicates.

(** ** Loading a model *)

Lemma loadItems_null_free (stack : list (option (C3dItem Model))) :
  snd (loadItems stack) = forallb entryNullFree stack.
Proof.
  funelim (loadItems stack); simp loadItems; try done.
  - rewrite H, !forallb_app. cbn [forallb entryNullFree nullFree].
    rewrite andb_comm. f_equal. clear. induction items as [|i items IH]; [done|].
    rewrite fmap_cons. cbn [forallb entryNullFree]. by rewrite IH.
  - rewrite H, !forallb_app. cbn [forallb entryNullFree nullFree].
    rewrite andb_comm, andb_true_r. by destruct item.
Qed.


(** X18: [load] rejects with the [TypeError] of [item.Cast] on [null] if
    and only if some [Instance] in the model, at any depth, has no item;
    this does not depend on [preserveNames] nor on the database. *)
Theorem load_TypeError_iff_null items preserveNames s :
  snd (load build items preserveNames s) = LoadTypeError ↔
  forallb nullFree items = false.
Proof.
  unfold load. destruct (addItems _ _ _) as [s' results]. cbn [snd].
  rewrite loadItems_null_free.
  assert (forallb entryNullFree (Some <$> items) = forallb nullFree items) as ->.
  { induction items as [|i items IH]; [done|].
    rewrite fmap_cons. cbn [forallb entryNullFree]. by rewrite IH. }
  destruct (forallb nullFree items); [|done].
  split; [|done]. by destruct (all results).
Qed.





Lemma load_run items preserveNames c :
  fst (load build items preserveNames (state c)) =
    state (run build buildTemporary (loadOps items preserveNames) c).
Proof.
  unfold load, loadOps.
  generalize (fst (loadItems (Some <$> items))). intros ls.
  destruct (addItems _ _ _) as [s1 results] eqn:Hadd. cbn [fst].
  revert c s1 results Hadd. induction ls as [|[model name] ls IH]; intros c s1 results.
  - by intros [= <- _].
  - rewrite !fmap_cons. cbn [addItems run].
    destruct (addItem _ _ _ _ (state c)) as [s2 result] eqn:Hop.
    destruct (addItems _ _ s2) as [s3 results'] eqn:Hrest.
    intros [= <- _]. unfold perform. rewrite Hop.
    destruct result; eapply IH; exact Hrest.
Qed.

Lemma run_ops_app ops1 ops2 c :
  run build buildTemporary (ops1 ++ ops2) c =
    run build buildTemporary ops2 (run build buildTemporary ops1 c).
Proof. revert c. induction ops1 as [|op ops1 IH]; intros c; [done|]. apply IH. Qed.

Lemma plainly_app ops1 ops2 c :
  plainly build buildTemporary ops1 c →
  plainly build buildTemporary ops2 (run build buildTemporary ops1 c) →
  plainly build buildTemporary (ops1 ++ ops2) c.
Proof.
  revert c. induction ops1 as [|op ops1 IH]; intros c; [done|].
  intros [Hop Hrest] Hmore. split; [done|]. by apply IH.
Qed.

Lemma plainly_loadOps items c :
  plainly build buildTemporary (loadOps items false) c.
Proof.
  unfold loadOps. generalize (fst (loadItems (Some <$> items))). intros ls.
  revert c. induction ls as [|[model name] ls IH]; intros c; [done|].
  rewrite fmap_cons. split; [done|apply IH].
Qed.

(** X22: as long as [addItem] was handed no explicit name and
    [replaceItem] and [removeItem] were handed views the database knows,
    the assertion of [validate] still holds after a [load] without
    [preserveNames], whatever the model and however the promise of [load]
    settles. *)
Theorem validate_passes_after_load ops items :
  plainly build buildTemporary ops (start new) →
  validate (fst (load build items false (reached ops))) = true.
Proof.
  intros Hplain. rewrite load_run, <-run_ops_app.
  assert (plainly build buildTemporary (ops ++ loadOps items false) (start new))
    as Hall by (apply plainly_app; [done|apply plainly_loadOps]).
  destruct (plain_operations_keep_inverses build buildTemporary _ Hall)
    as [(Hsize & _) _].
  apply bool_decide_eq_true_2. symmetry. exact Hsize.
Qed.

End GeometryDatabaseMore.


Lemma added_item_can_be_looked_up_witness :
  let s' := state (exampleRun [AddItem tt user None]) in
  1 = insertedName None (this (new : State unit unit unit)) ∧
  lookupItemById 1 s' = (s', Ok (exampleView 1, tt)) ∧
  lookup (exampleView 1) s' = (s', Ok tt) ∧
  lookupName 1 s' = (s', Ok (Some (Some 1))) ∧
  lookupByName 1 s' = (s', inr (exampleView 1, tt)).
Proof.
  intros s'.
  apply (added_item_can_be_looked_up exampleBuild tt user None new s' (exampleView 1)).
  - repeat split; reflexivity.
  - reflexivity.
Defined.

Lemma removed_item_is_gone_witness :
  let s := state (exampleRun [AddItem tt user None]) in
  let s' := fst (removeItem (exampleView 1) user s) in
  lookup (exampleView 1) s' = (s', Throw (MissingFromGeometryModel 1)) ∧
  lookupName 1 s' = (s', Ok None) ∧
  lookupByName 1 s' = (s', inl None).
Proof.
  intros s s'.
  destruct (removed_item_is_gone (exampleView 1) user s s' (Ok tt))
    as (_ & _ & Hlookup & Hname & Hbyname).
  - repeat split; reflexivity.
  - reflexivity.
  - split_and!; [exact Hlookup|exact Hname|]. apply Hbyname. reflexivity.
Defined.

Lemma removeItem_deletes_faces_and_points_witness :
  let s := state (exampleRun [AddItem tt user None]) in
  let s' := fst (removeItem (exampleView 1) user s) in
  lookupTopologyItemById "face" s = (s, Ok tt) ∧
  lookupTopologyItemById "face" s' = (s', Throw (MissingFromTopologyModel "face")) ∧
  lookupControlPointById "point" s' = (s', Throw (MissingFromControlPointModel "point")).
Proof.
  intros s s'.
  destruct (removeItem_deletes_faces_and_points (exampleView 1) user s s' (Ok tt))
    as (Htopo & _ & Hpts).
  - repeat split; reflexivity.
  - reflexivity.
  - split_and!; [reflexivity|apply (Htopo "face")|apply (Hpts "point")].
Defined.




Lemma removed_item_is_not_found_witness :
  let s := state (exampleRun [AddItem tt user None]) in
  (exampleView 1, tt) ∈ findAll true s ∧
  (exampleView 1, tt) ∉ find None true (fst (removeItem (exampleView 1) user s)).
Proof.
  intros s. split; [vm_compute; apply list_elem_of_here|].
  apply (removed_item_is_not_found exampleBuild exampleBuildTemporary
           [AddItem tt user None] (exampleView 1) user _ (Ok tt) None true tt).
  vm_compute. reflexivity.
Defined.





Lemma stored_items_are_found_by_name_witness :
  let s := state (exampleRun [AddItem tt user None; ReplaceItem (exampleView 1) tt]) in
  ∃ n, lookupName 2 s = (s, Ok (Some (Some n))) ∧
       lookupByName n s = (s, inr (exampleView 2, tt)).
Proof.
  intros s.
  apply (stored_items_are_found_by_name exampleBuild exampleBuildTemporary
           [AddItem tt user None; ReplaceItem (exampleView 1) tt] (exampleView 2) tt).
  - split; [reflexivity|]. split; [|exact I]. exists (Some 1). vm_compute. reflexivity.
  - vm_compute. apply list_elem_of_here.
Defined.

Lemma validate_passes_witness :
  validate (state (exampleRun [AddItem tt user None; ReplaceItem (exampleView 1) tt;
                               RemoveItem (exampleView 2) user])) = true.
Proof.
  apply (validate_passes exampleBuild exampleBuildTemporary
           [AddItem tt user None; ReplaceItem (exampleView 1) tt;
            RemoveItem (exampleView 2) user]).
  split; [reflexivity|].
  split; [exists (Some 1); vm_compute; reflexivity|].
  split; [exists (Some 1); vm_compute; reflexivity|exact I].
Defined.

Lemma temporary_items_are_not_stored_witness :
  let s := state (exampleRun [AddItem tt user None]) in
  let s' := fst (addPhantom exampleBuildTemporary tt s) in
  contents s' = contents s ∧
  positiveCounter (this s') = positiveCounter (this s) ∧
  ∀ klass includeAutomatics, find klass includeAutomatics s' = find klass includeAutomatics s.
Proof.
  intros s s'.
  apply (temporary_items_are_not_stored exampleBuildTemporary tt None intoPhantomObjects
           s s' (Ok (-1, exampleView (-1)))).
  vm_compute. reflexivity.
Defined.


Lemma duplicate_of_unknown_throws_witness :
  let s := state (exampleRun [AddItem tt user None]) in
  duplicate exampleBuild id (λ _, tt) (inl (exampleView 5)) s =
    (s, Throw (MissingFromGeometryModel 5)) ∧
  duplicate exampleBuild id (λ _, tt) (inr "edge") s =
    (s, Throw (MissingFromTopologyModel "edge")).
Proof.
  intros s. split.
  - apply (duplicate_of_unknown_throws exampleBuild id (λ _, tt) (inl (exampleView 5)) s).
    vm_compute. reflexivity.
  - apply (duplicate_of_unknown_throws exampleBuild id (λ _, tt) (inr "edge") s).
    vm_compute. reflexivity.
Defined.



Lemma validate_passes_after_load_witness :
  validate (fst (load exampleBuild [C3dAssembly [C3dLeaf tt 1]; C3dLeaf tt 1] false
                   (state (exampleRun [AddItem tt user None])))) = true.
Proof.
  apply (validate_passes_after_load exampleBuild exampleBuildTemporary
           [AddItem tt user None] [C3dAssembly [C3dLeaf tt 1]; C3dLeaf tt 1]).
  split; [reflexivity|exact I].
Defined.

(** * Facts about the command executor *)

Import CommandExecutor.

#[local] Close Scope Z_scope.

Section CommandExecutorFacts.

Implicit Types (w : Executor) (c : Command) (o : Outcome) (e : Event).

(** ** The model against the four tests of the suite

    The assertions of 'basic successful execution', 'basic unsuccessful
    execution', 'unsuccessful execution catches exception and continues
    to next command' and 'enqueue cancels active commands and executes
    the most recent', in this order; [await p] lets the queue run. *)
Lemma the_tests_pass :
  (stateOf (run [Enqueue 1] init) 1 = None' ∧
   stateOf (run [Enqueue 1; Resolve 1; Start; Settle] init) 1 = Finished) ∧
  (stateOf (run [Enqueue 1] init) 1 = None' ∧
   stateOf (run [Enqueue 1; Reject 1; Start; Settle] init) 1 = Cancelled) ∧
  (let w := run [Reject 1; Resolve 2; Enqueue 1; Start; Settle;
                 Enqueue 2; Start; Settle] init in
   stateOf w 1 = Cancelled ∧ stateOf w 2 = Finished) ∧
  (let w1 := run [Enqueue 1; Enqueue 2; Enqueue 3] init in
   let w2 := run [Reject 1; Resolve 2; Resolve 3; Start; Settle; Start; Settle] w1 in
   (stateOf w1 1 = Interrupted ∧ stateOf w1 2 = None' ∧ stateOf w1 3 = None') ∧
   (handleOf w2 1 = Some Resolved ∧ handleOf w2 2 = Some Resolved ∧
    handleOf w2 3 = Some Resolved) ∧
   (stateOf w2 1 = Interrupted ∧ stateOf w2 2 = None' ∧ stateOf w2 3 = Finished)).
Proof. by vm_compute. Qed.

Lemma run_app es1 es2 w : run (es1 ++ es2) w = run es2 (run es1 w).
Proof. revert w. induction es1 as [|e es1 IH]; intros w; simpl; [done|apply IH]. Qed.

Lemma interrupt_idempotent st : interrupt (interrupt st) = interrupt st.
Proof. by destruct st. Qed.

(** ** Enqueueing behind an active command *)

(** Commands enqueued while [a] is active: [a] is interrupted, the last
    of them waits, nothing else changes but promises. *)
Lemma enqueue_behind a cs w :
  active w = Some a →
  let w' := run (Enqueue <$> cs) w in
  states w' = match cs with
              | [] => states w
              | _ => <[a := interrupt (stateOf w a)]> (states w)
              end ∧
  outcomes w' = outcomes w ∧ active w' = Some a ∧ running w' = running w ∧
  next w' = match cs with [] => next w | _ => last cs end ∧
  history w' = history w.
Proof.
  intros Ha. induction cs as [|c cs IH] using rev_ind; [done|].
  rewrite fmap_app, run_app. cbv zeta in *. simpl.
  destruct IH as (Hst & Hout & Hact & Hrun & Hnext & Hhist).
  unfold enqueue. rewrite Hact. simpl. rewrite last_snoc.
  split_and!; try done; [|destruct cs; by simpl].
  unfold stateOf at 1. rewrite Hst.
  destruct cs as [|c' cs']; simpl; [done|].
  unfold stateOf. rewrite lookup_insert_eq. simpl.
  by rewrite insert_insert_eq, interrupt_idempotent.
Qed.

(** Telling commands how to settle changes their outcomes only. *)
Lemma tell_others (om : Command → Outcome) cs w :
  let w' := run ((λ c, told (om c) c) <$> cs) w in
  states w' = states w ∧ active w' = active w ∧ running w' = running w ∧
  next w' = next w ∧ handles w' = handles w ∧ history w' = history w ∧
  ∀ c, c ∉ cs → outcomes w' !! c = outcomes w !! c.
Proof.
  induction cs as [|c cs IH] using rev_ind; [done|].
  rewrite fmap_app, run_app. cbv zeta in *. simpl.
  destruct IH as (Hst & Hact & Hrun & Hnext & Hhd & Hhist & Hout).
  assert (∀ o w0, step (told o c) w0 = tell c o w0) as Htold by (by intros []).
  rewrite Htold. unfold tell. simpl.
  split_and!; try done.
  intros c' [Hc' Hne]%not_elem_of_app. rewrite <-Hout by done.
  destruct (outcomes _ !! c); [done|]. rewrite lookup_insert_ne; [done|].
  intros ->. apply Hne. by apply list_elem_of_singleton.
Qed.

(** ** The two steps of the queue *)

Lemma startActive_begins w a :
  active w = Some a → running w = false →
  startActive w =
    {| states := <[a := begin (stateOf w a)]> (states w);
       outcomes := outcomes w; active := Some a; running := true;
       next := next w; handles := handles w; history := history w |}.
Proof. intros Ha Hr. unfold startActive. by rewrite Ha, Hr. Qed.

Lemma settleActive_settles w a o :
  active w = Some a → running w = true → outcomes w !! a = Some o →
  settleActive w =
    {| states := <[a := settle (stateOf w a) o]> (states w);
       outcomes := outcomes w; active := next w; running := false;
       next := None; handles := <[a := Resolved]> (handles w);
       history := if checkpoint (stateOf w a) o
                  then history w ++ [a] else history w |}.
Proof. intros Ha Hr Ho. unfold settleActive. by rewrite Ha, Hr, Ho. Qed.

Ltac ne_tac := first [done | by apply not_eq_sym].

Lemma enqueue_idle w c :
  active w = None →
  enqueue c w =
    {| states := states w; outcomes := outcomes w; active := Some c;
       running := false; next := next w;
       handles := <[c := Pending]> (handles w); history := history w |}.
Proof. intros Ha. unfold enqueue. by rewrite Ha. Qed.

(** Run the innermost step of the queue in the goal. *)
Ltac begin_step a :=
  match goal with
  | |- context [startActive ?x] => rewrite (startActive_begins x a) by done
  end;
  cbn [states outcomes active running next handles history].

Ltac enqueue_step :=
  match goal with
  | |- context [enqueue ?c ?x] => rewrite (enqueue_idle x c) by done
  end;
  cbn [states outcomes active running next handles history].

Ltac settle_step a o :=
  match goal with
  | |- context [settleActive ?x] =>
      rewrite (settleActive_settles x a o);
      [|done|done|
       by cbn [outcomes];
          repeat first [rewrite lookup_insert_eq | rewrite lookup_insert_ne by ne_tac]]
  end;
  cbn [states outcomes active running next handles history].

Lemma stateOf_insert c c' st (sts : gmap Command State) :
  default None' (<[c := st]> sts !! c') =
  if decide (c = c') then st else default None' (sts !! c').
Proof.
  destruct (decide (c = c')) as [->|Hne];
    [by rewrite lookup_insert_eq|by rewrite lookup_insert_ne].
Qed.

(** Read the states of the commands whose identity is known. *)
Ltac norm_states :=
  unfold stateOf; cbn [states];
  repeat (rewrite stateOf_insert;
          first [rewrite decide_True by done | rewrite decide_False by ne_tac]);
  cbn [default begin settle checkpoint interrupt].

(** ** A chain of commands enqueued in immediate succession *)

Lemma chain w c1 mid cN o1 om oN :
  idle w →
  NoDup (c1 :: mid ++ [cN]) →
  (∀ c, c ∈ c1 :: mid ++ [cN] → states w !! c = None) →
  outcomes w !! c1 = None → outcomes w !! cN = None →
  let w1 := run (enqueues c1 mid cN) w in
  let w2 := run (settlements o1 c1 om mid oN cN) w1 in
  (stateOf w1 c1 = Interrupted ∧ (∀ c, c ∈ mid → stateOf w1 c = None') ∧
   stateOf w1 cN = None') ∧
  (stateOf w2 c1 = Interrupted ∧ (∀ c, c ∈ mid → stateOf w2 c = None') ∧
   stateOf w2 cN = settle Started oN) ∧
  history w2 = history w ++ (if checkpoint Started oN then [cN] else []) ∧
  idle w2.
Proof.
  intros [Hact Hnext] Hdup Hfresh Ho1 HoN.
  assert (states w !! c1 = None) as Hf1 by (apply Hfresh, list_elem_of_here).
  assert (states w !! cN = None) as HfN.
  { apply Hfresh, list_elem_of_further, elem_of_app. right. apply list_elem_of_here. }
  assert (∀ c, c ∈ mid → states w !! c = None) as Hfm.
  { intros c Hc. apply Hfresh, list_elem_of_further, elem_of_app. by left. }
  clear Hfresh.
  apply NoDup_cons in Hdup as [Hc1 Hdup].
  apply NoDup_app in Hdup as (Hmid & HcN & _).
  assert (c1 ≠ cN) as Hne.
  { intros ->. apply Hc1, elem_of_app. right. apply list_elem_of_here. }
  assert (c1 ∉ mid) as Hc1m.
  { intros ?. apply Hc1, elem_of_app. by left. }
  assert (cN ∉ mid) as HcNm.
  { intros ?. eapply HcN; [done|apply list_elem_of_here]. }
  assert (∀ c, c ∈ mid → c ≠ c1 ∧ c ≠ cN) as Hm by (intros c ?; split; by intros ->).
  intros w1 w2.
  (* the enqueues *)
  assert (states w1 = <[c1 := Interrupted]> (states w) ∧ outcomes w1 = outcomes w ∧
          active w1 = Some c1 ∧ running w1 = false ∧ next w1 = Some cN ∧
          history w1 = history w) as (Hst1 & Hout1 & Hact1 & Hrun1 & Hnext1 & Hhist1).
  { subst w1. unfold enqueues. simpl.
    replace ((Enqueue <$> mid) ++ [Enqueue cN]) with (Enqueue <$> (mid ++ [cN]))
      by (by rewrite fmap_app).
    destruct (enqueue_behind c1 (mid ++ [cN]) (enqueue c1 w)) as (H1 & H2 & H3 & H4 & H5 & H6).
    { unfold enqueue. by rewrite Hact. }
    cbv zeta in *. rewrite H1, H2, H3, H4, H5, H6. rewrite last_snoc.
    unfold enqueue, stateOf. rewrite Hact. simpl.
    rewrite Hf1. simpl.
    split_and!; try done; by destruct mid. }
  (* the settlements *)
  subst w2. clearbody w1. unfold settlements.
  change (run (told o1 c1 :: ?es) w1) with (run es (step (told o1 c1) w1)).
  rewrite run_app.
  assert (step (told o1 c1) w1 = tell c1 o1 w1) as -> by (by destruct o1).
  destruct (tell_others om mid (tell c1 o1 w1)) as (Hst & Hac & Hrn & Hnx & Hhd & Hhs & Hot).
  cbv zeta in Hst, Hac, Hrn, Hnx, Hhd, Hhs, Hot.
  set (w3 := run ((λ c, told (om c) c) <$> mid) (tell c1 o1 w1)) in *.
  assert (outcomes w3 !! c1 = Some o1 ∧ outcomes w3 !! cN = None) as [Ho31 Ho3N].
  { rewrite !Hot by done. unfold tell. cbn [outcomes]. rewrite Hout1, Ho1.
    by rewrite lookup_insert_eq, lookup_insert_ne. }
  clearbody w3. unfold tell in Hst, Hac, Hrn, Hnx, Hhs.
  cbn [states active running next history] in Hst, Hac, Hrn, Hnx, Hhs.
  split.
  { unfold stateOf. rewrite Hst1. split_and!.
    - by rewrite lookup_insert_eq.
    - intros c Hc. destruct (Hm c Hc). rewrite lookup_insert_ne by done.
      by rewrite (Hfm c).
    - rewrite lookup_insert_ne by done. by rewrite HfN. }
  rewrite Hst1 in Hst. rewrite Hact1 in Hac. rewrite Hrun1 in Hrn.
  rewrite Hnext1 in Hnx. rewrite Hhist1 in Hhs. clear Hhd Hot.
  destruct w3 as [st3 out3 act3 run3 next3 hd3 hist3].
  cbn [states outcomes active running next history] in *. subst.
  change (run (?e :: ?es) ?w0) with (run es (step e w0)).
  assert (step (told oN cN)
            {| states := <[c1:=Interrupted]> (states w); outcomes := out3;
               active := Some c1; running := false; next := Some cN;
               handles := hd3; history := history w |} =
          {| states := <[c1:=Interrupted]> (states w); outcomes := <[cN := oN]> out3;
             active := Some c1; running := false; next := Some cN;
             handles := hd3; history := history w |}) as ->.
  { destruct oN; simpl; unfold tell; simpl; by rewrite Ho3N. }
  cbn [run step].
  begin_step c1. norm_states. settle_step c1 o1. norm_states.
  begin_step cN. norm_states. rewrite HfN. cbn [default begin].
  settle_step cN oN. norm_states.
  unfold idle. cbn [active next history].
  split_and!; try done.
  - intros c Hc. destruct (Hm c Hc).
    rewrite !lookup_insert_ne by done. by rewrite (Hfm c).
  - destruct oN; [done|by rewrite app_nil_r].
Qed.


(** C2: three commands enqueued in immediate succession on an idle
    executor: before anything settles the first is [Interrupted] and the
    other two are in ['None']; once the effect routine of the first has
    rejected and those of the other two have resolved, the first is still
    [Interrupted], the second still in ['None'], and the third
    [Finished]. *)
Theorem three_commands_in_succession w c1 c2 c3 :
  idle w →
  NoDup [c1; c2; c3] →
  (∀ c, c ∈ [c1; c2; c3] → states w !! c = None) →
  outcomes w !! c1 = None → outcomes w !! c3 = None →
  let w1 := run [Enqueue c1; Enqueue c2; Enqueue c3] w in
  let w2 := run [Reject c1; Resolve c2; Resolve c3; Start; Settle; Start; Settle] w1 in
  (stateOf w1 c1 = Interrupted ∧ stateOf w1 c2 = None' ∧ stateOf w1 c3 = None') ∧
  (stateOf w2 c1 = Interrupted ∧ stateOf w2 c2 = None' ∧ stateOf w2 c3 = Finished).
Proof.
  intros Hidle Hdup Hfresh Ho1 Ho3.
  destruct (chain w c1 [c2] c3 Rejects (λ _, Resolves) Resolves Hidle Hdup Hfresh Ho1 Ho3)
    as ((H1 & H2 & H3) & (H1' & H2' & H3') & _).
  split; (split_and!; [done| |done]).
  - apply H2, list_elem_of_here.
  - apply H2', list_elem_of_here.
Qed.

(** ** A command that nothing supersedes *)



(** ** A failing command and the next one *)

(** C5: a command whose effect routine throws, enqueued on an idle
    executor and awaited, ends [Cancelled]; the command enqueued after it
    is executed all the same, and ends [Finished] when its own effect
    routine succeeds; both promises are resolved and the executor is idle
    again. *)
Theorem failing_command_does_not_block w c1 c2 o2 :
  idle w →
  c1 ≠ c2 →
  states w !! c1 = None → states w !! c2 = None →
  outcomes w !! c1 = None → outcomes w !! c2 = None →
  let w' := run [Reject c1; told o2 c2;
                 Enqueue c1; Start; Settle;
                 Enqueue c2; Start; Settle] w in
  stateOf w' c1 = Cancelled ∧
  stateOf w' c2 = match o2 with Resolves => Finished | Rejects => Cancelled end ∧
  handleOf w' c1 = Some Resolved ∧ handleOf w' c2 = Some Resolved ∧
  idle w'.
Proof.
  intros [Hact Hnext] Hne Hs1 Hs2 Ho1 Ho2 w'. subst w'.
  destruct w as [st out act rn nx hd hs]. cbn [states outcomes active next] in *.
  subst act nx.
  assert (∀ w0, step (told o2 c2) w0 = tell c2 o2 w0) as Htold by (by destruct o2).
  cbn [run]. rewrite Htold. cbn [step]. unfold tell.
  cbn [states outcomes active running next handles history].
  rewrite Ho1, lookup_insert_ne, Ho2 by done.
  enqueue_step. begin_step c1. norm_states. rewrite Hs1. cbn [default begin].
  settle_step c1 Rejects. norm_states.
  enqueue_step. begin_step c2. norm_states. rewrite Hs2. cbn [default begin].
  settle_step c2 o2. norm_states.
  unfold idle, handleOf. cbn [states outcomes active running next handles history].
  rewrite lookup_insert_eq, lookup_insert_ne, lookup_insert_ne, lookup_insert_eq by done.
  by destruct o2.
Qed.

(** ** The promises of [enqueue] *)







End CommandExecutorFacts.



Lemma three_commands_in_succession_witness :
  let w1 := run [Enqueue 1; Enqueue 2; Enqueue 3] init in
  let w2 := run [Reject 1; Resolve 2; Resolve 3; Start; Settle; Start; Settle] w1 in
  (stateOf w1 1 = Interrupted ∧ stateOf w1 2 = None' ∧ stateOf w1 3 = None') ∧
  (stateOf w2 1 = Interrupted ∧ stateOf w2 2 = None' ∧ stateOf w2 3 = Finished).
Proof.
  apply (three_commands_in_succession init 1 2 3).
  - split; reflexivity.
  - by apply (bool_decide_unpack _); vm_compute.
  - intros c _. reflexivity.
  - reflexivity.
  - reflexivity.
Defined.




Lemma failing_command_does_not_block_witness :
  let w' := run [Reject 1; Resolve 2; Enqueue 1; Start; Settle;
                 Enqueue 2; Start; Settle] init in
  stateOf w' 1 = Cancelled ∧ stateOf w' 2 = Finished ∧
  handleOf w' 1 = Some Resolved ∧ handleOf w' 2 = Some Resolved ∧
  idle w'.
Proof.
  apply (failing_command_does_not_block init 1 2 Resolves).
  - split; reflexivity.
  - discriminate.
  - reflexivity.
  - reflexivity.
  - reflexivity.
  - reflexivity.
Defined.
